(** * PioneerGUI: the path-addressed JSON algebra and the tree editor

    A shallow embedding of [src/lib/utils.ts] ([getValue], [setValue],
    [deleteKey], [collectPaths], [deepMerge]), of the event handlers of
    [JsonEditor.svelte] and of the configuration handlers of [App.svelte],
    with the properties the specification states about them.

    Modelling conventions.
    - A run-time value is a [JsonValue].  The TypeScript type of that name
      excludes [undefined], but the functions below receive and produce it
      ([clone[head]] of an absent key, [JsonValue | undefined]), so
      [JUndefined] is a constructor and [is_json] singles out the values of
      the declared type.
    - A number is an IEEE 754 double, kept as a [spec_float].
    - An object is the list of its own entries in [Object.entries] order:
      the keys that are array indices first, in ascending order, then the
      other keys in the order of their creation.  Its prototype is
      [Object.prototype].  Assigning an own key keeps its place; assigning
      a new key creates it at its place in that order, except for
      [__proto__], which then is the accessor of [Object.prototype] and
      creates no key.
    - [obj[key]] is modelled as the read of an own key, [undefined] when
      there is none.  For the names of [inheritedNames] the platform finds a
      function (or the prototype) on [Object.prototype] instead, which is
      no [JsonValue]; what is stated about a read of an absent key is
      stated for the other keys.
    - An array is the list of what reading each index gives; a hole reads
      as [undefined] and is kept as [JUndefined].  Only [flatMap] and
      [every] tell the two apart (they skip a hole); what is stated about
      them is stated for arrays without [undefined] elements.
    - A path segment of kind number is an array index, a [nat].
    - A string is a sequence of code units in the ASCII range.
    - [Number] and [JSON.parse] belong to the platform; the editor is
      modelled for any two functions of their types.
    - A handler is the function from the state before to the state after,
      or the list of the callbacks it emits. *)

From Stdlib Require Import Floats.SpecFloat Strings.Ascii.
From stdpp Require Import base list strings pretty gmap.

Set Default Proof Using "Type".
Set Warnings "-register-all".

(** ** Data model *)

Inductive JsonValue : Type :=
  | JUndefined
  | JNull
  | JBool (b : bool)
  | JNumber (n : spec_float)
  | JString (s : string)
  | JArray (items : list JsonValue)
  | JObject (entries : list (string * JsonValue)).

(** [JsonPath = Array<string | number>] *)
Inductive Segment : Type :=
  | SKey (key : string)
  | SIdx (index : nat).

Definition JsonPath : Type := list Segment.

Global Instance Segment_eq_dec : EqDecision Segment.
Proof. solve_decision. Defined.

(** [acc === null || typeof acc === 'boolean' || typeof acc === 'number'
    || typeof acc === 'string'] *)
Definition isPrimitive (v : JsonValue) : bool :=
  match v with
  | JNull | JBool _ | JNumber _ | JString _ => true
  | _ => false
  end.

(** [typeof v === 'object' && v !== null && !Array.isArray(v)] *)
Definition isObject (v : JsonValue) : bool :=
  match v with
  | JObject _ => true
  | _ => false
  end.

(** *** Objects as entry lists *)

Definition Entries : Type := list (string * JsonValue).

Definition keys (entries : Entries) : list string := entries.*1.

(** Own-property lookup: the first (and, in a JavaScript object, only)
    entry of that key. *)
Fixpoint lookupKey (key : string) (entries : Entries) : option JsonValue :=
  match entries with
  | [] => None
  | (k, v) :: rest => if decide (k = key) then Some v else lookupKey key rest
  end.

(** [obj[key]], for an own key or a key that the prototype lacks. *)
Definition prop (key : string) (entries : Entries) : JsonValue :=
  default JUndefined (lookupKey key entries).

(** The names that every object inherits from [Object.prototype]. *)
Definition inheritedNames : list string :=
  ["constructor"; "hasOwnProperty"; "isPrototypeOf"; "propertyIsEnumerable";
   "toLocaleString"; "toString"; "valueOf"; "__proto__";
   "__defineGetter__"; "__defineSetter__"; "__lookupGetter__"; "__lookupSetter__"].

Definition inherited (key : string) : bool := bool_decide (key ∈ inheritedNames).

(** The value of a decimal digit. *)
Definition digitValue (c : ascii) : option N :=
  let code := N_of_ascii c in
  if decide (48 ≤ code ∧ code ≤ 57)%N then Some (code - 48)%N else None.

Fixpoint decimalValue (acc : N) (s : string) : option N :=
  match s with
  | EmptyString => Some acc
  | String c s' =>
      match digitValue c with
      | Some d => decimalValue (10 * acc + d) s'
      | None => None
      end
  end.

(** A key that is an array index: the decimal digits, without a leading
    zero, of a number below [2^32 - 1].  Such keys come first among the own
    keys of an object, in ascending order. *)
Definition arrayIndex (key : string) : option N :=
  match key with
  | EmptyString => None
  | String c rest =>
      if decide (c = "0"%char ∧ rest ≠ EmptyString) then None
      else
        match decimalValue 0 key with
        | Some n => if decide (n < 2 ^ 32 - 1)%N then Some n else None
        | None => None
        end
  end.

(** The assignment to an own key: the entry keeps its place. *)
Fixpoint replaceProp (key : string) (value : JsonValue) (entries : Entries) : Entries :=
  match entries with
  | [] => []
  | (k, v) :: rest =>
      if decide (k = key) then (k, value) :: rest
      else (k, v) :: replaceProp key value rest
  end.

(** The creation of a key that is the array index [index]: before the
    first key that is no array index or is a greater one. *)
Fixpoint insertIndex (index : N) (key : string) (value : JsonValue) (entries : Entries)
  : Entries :=
  match entries with
  | [] => [(key, value)]
  | (k, v) :: rest =>
      match arrayIndex k with
      | Some i =>
          if decide (i < index)%N then (k, v) :: insertIndex index key value rest
          else (key, value) :: entries
      | None => (key, value) :: entries
      end
  end.

(** [obj[key] = value].  An own key is overwritten in place.  A new key is
    created, an array index among the array indices and any other key
    last; but [__proto__], when it is no own key, is the accessor that
    [Object.prototype] has: its setter creates no key (it replaces the
    prototype when [value] is an object or [null], which the entries do not
    show). *)
Definition assign (key : string) (value : JsonValue) (entries : Entries) : Entries :=
  match lookupKey key entries with
  | Some _ => replaceProp key value entries
  | None =>
      if decide (key = "__proto__") then entries
      else
        match arrayIndex key with
        | Some index => insertIndex index key value entries
        | None => entries ++ [(key, value)]
        end
  end.

(** [delete obj[key]] *)
Fixpoint deleteProp (key : string) (entries : Entries) : Entries :=
  match entries with
  | [] => []
  | (k, v) :: rest =>
      if decide (k = key) then rest else (k, v) :: deleteProp key rest
  end.

(** *** Arrays *)

(** [arr[index]] *)
Definition elem (index : nat) (items : list JsonValue) : JsonValue :=
  default JUndefined (items !! index).

(** [arr[index] = value]: in range the slot is overwritten; out of range
    the array grows to [index + 1] and the slots in between are holes. *)
Definition store (index : nat) (value : JsonValue) (items : list JsonValue)
  : list JsonValue :=
  if decide (index < length items) then <[index := value]> items
  else items ++ replicate (index - length items) JUndefined ++ [value].

(** [arr.splice(index, 1)] *)
Definition splice1 (index : nat) (items : list JsonValue) : list JsonValue :=
  take index items ++ drop (S index) items.

(** *** Values of the declared type *)

(** No [undefined] anywhere, and the keys of an object are distinct. *)
Fixpoint is_json (v : JsonValue) : bool :=
  match v with
  | JUndefined => false
  | JNull | JBool _ | JNumber _ | JString _ => true
  | JArray items => forallb is_json items
  | JObject entries =>
      bool_decide (NoDup (keys entries)) && forallb (λ e, is_json e.2) entries
  end.

(** The double nearest to an integer, for the examples. *)
Definition numOfZ (z : Z) : spec_float := binary_normalize 53 1024 z 0 false.

Definition JInt (z : Z) : JsonValue := JNumber (numOfZ z).

(** ** Induction on values *)

Section JsonValue_induction.
Variable P : JsonValue → Prop.
Hypothesis P_undefined : P JUndefined.
Hypothesis P_null : P JNull.
Hypothesis P_bool : ∀ b, P (JBool b).
Hypothesis P_number : ∀ n, P (JNumber n).
Hypothesis P_string : ∀ s, P (JString s).
Hypothesis P_array : ∀ items, Forall P items → P (JArray items).
Hypothesis P_object : ∀ entries, Forall (λ e, P e.2) entries → P (JObject entries).

Fixpoint JsonValue_deep_ind (v : JsonValue) : P v :=
  match v with
  | JUndefined => P_undefined
  | JNull => P_null
  | JBool b => P_bool b
  | JNumber n => P_number n
  | JString s => P_string s
  | JArray items =>
      P_array items
        ((fix all (l : list JsonValue) : Forall P l :=
            match l with
            | [] => Forall_nil_2 P
            | item :: l' => Forall_cons_2 P item l' (JsonValue_deep_ind item) (all l')
            end) items)
  | JObject entries =>
      P_object entries
        ((fix all (l : Entries) : Forall (λ e, P e.2) l :=
            match l with
            | [] => Forall_nil_2 _
            | e :: l' => Forall_cons_2 _ e l' (JsonValue_deep_ind e.2) (all l')
            end) entries)
  end.
End JsonValue_induction.

(** ** Array methods *)

(** [arr.flatMap((item, index) => f(item, index))], where [f] may throw. *)
Definition flatMapIdx {A B} (f : A → nat → option (list B))
  : list A → nat → option (list B) :=
  fix go (l : list A) (index : nat) : option (list B) :=
    match l with
    | [] => Some []
    | item :: l' =>
        match f item index with
        | None => None
        | Some here =>
            match go l' (S index) with
            | None => None
            | Some there => Some (here ++ there)
            end
        end
    end.

(** [flatMapIdx] for a callback that cannot throw. *)
Definition flatMapi {A B} (f : A → nat → list B) : list A → nat → list B :=
  fix go (l : list A) (index : nat) : list B :=
    match l with
    | [] => []
    | item :: l' => f item index ++ go l' (S index)
    end.

(** ** Path algebra ([src/lib/utils.ts]) *)

(** The callback of the [reduce] in [getValue]. *)
Definition getStep (acc : JsonValue) (key : Segment) : JsonValue :=
  match acc with
  | JUndefined => JUndefined
  | JNull | JBool _ | JNumber _ | JString _ => acc
  | JArray items =>
      match key with
      | SIdx i => elem i items
      | SKey _ => JUndefined
      end
  | JObject entries =>
      match key with
      | SKey k => prop k entries
      | SIdx _ => JUndefined
      end
  end.

Definition getValue (root : JsonValue) (path : JsonPath) : JsonValue :=
  foldl getStep root path.

(** [clone[head as string]] with a number for [head]: the property key is
    the number's decimal string. *)
Definition segKey (head : Segment) : string :=
  match head with
  | SKey k => k
  | SIdx i => pretty i
  end.

Fixpoint setValue (root : JsonValue) (path : JsonPath) (value : JsonValue)
  : JsonValue :=
  match path with
  | [] => value
  | head :: rest =>
      match root with
      | JArray items =>
          match head with
          | SKey _ => root
          | SIdx i => JArray (store i (setValue (elem i items) rest value) items)
          end
      | JObject entries =>
          match rest with
          | [] => JObject (assign (segKey head) value entries)
          | _ :: _ =>
              JObject (assign (segKey head)
                         (setValue (prop (segKey head) entries) rest value)
                         entries)
          end
      | _ => root
      end
  end.

Fixpoint deleteKey (root : JsonValue) (path : JsonPath) : JsonValue :=
  match path with
  | [] => root
  | head :: rest =>
      match root with
      | JArray items =>
          match head with
          | SKey _ => root
          | SIdx i =>
              match rest with
              | [] => JArray (splice1 i items)
              | _ :: _ => JArray (store i (deleteKey (elem i items) rest) items)
              end
          end
      | JObject entries =>
          match rest with
          | [] => JObject (deleteProp (segKey head) entries)
          | _ :: _ =>
              JObject (assign (segKey head)
                         (deleteKey (prop (segKey head) entries) rest)
                         entries)
          end
      | _ => root
      end
  end.

(** [prefix.join('.')] *)
Definition joinDot (segments : list string) : string :=
  String.concat "." segments.

(** [collectPaths]: [None] is the [TypeError] that [Object.entries] raises
    on [undefined].  (That [flatMap] skips the holes of an array is not
    modelled; a value of the declared type has none.) *)
Fixpoint collectPaths (value : JsonValue) (prefix : list string)
  : option (list string) :=
  match value with
  | JUndefined => None
  | JNull | JBool _ | JNumber _ | JString _ => Some [joinDot prefix]
  | JArray items =>
      flatMapIdx (λ item index, collectPaths item (prefix ++ [pretty index])) items 0
  | JObject entries =>
      flatMapIdx (λ '(key, child) _, collectPaths child (prefix ++ [key])) entries 0
  end.

(** [deepMerge]; the [foldl] is the [for ... of Object.entries(override)]
    that assigns into [result], which starts as a copy of [base]. *)
Fixpoint deepMerge (base override : JsonValue) {struct override} : JsonValue :=
  match override with
  | JObject overrideEntries =>
      match base with
      | JObject baseEntries =>
          JObject
            (foldl (λ result '(key, value),
                      assign key (deepMerge (prop key baseEntries) value) result)
               baseEntries overrideEntries)
      | _ => JObject overrideEntries
      end
  | _ => override
  end.

(** The entries that the loop of [deepMerge] leaves in [result]. *)
Definition mergeEntries (baseEntries overrideEntries : Entries) : Entries :=
  foldl (λ result '(key, value),
           assign key (deepMerge (prop key baseEntries) value) result)
    baseEntries overrideEntries.

(** ** The notions of the specification *)



(** The precondition of [setValue]: every container on the way to the
    target exists and has the kind its segment needs (an array for an
    index, an object for a key). *)
Fixpoint settable (root : JsonValue) (path : JsonPath) : bool :=
  match path with
  | [] => true
  | head :: rest =>
      match root, head with
      | JArray items, SIdx i => settable (elem i items) rest
      | JObject entries, SKey k => settable (prop k entries) rest
      | _, _ => false
      end
  end.


(** The specification's validity of a path against a value: each segment
    descends into a container of its kind (a key into a mapping that has it,
    an index into an array, within bounds).  [resolve root path] is the node
    the path leads to. *)
Fixpoint resolve (root : JsonValue) (path : JsonPath) : option JsonValue :=
  match path with
  | [] => Some root
  | head :: rest =>
      match root, head with
      | JArray items, SIdx i =>
          match items !! i with
          | Some item => resolve item rest
          | None => None
          end
      | JObject entries, SKey k =>
          match lookupKey k entries with
          | Some child => resolve child rest
          | None => None
          end
      | _, _ => None
      end
  end.

(** The specification's [collectLeafPaths]: every path from the root to a
    scalar leaf in pre-order, the elements of an array in index order and
    the entries of a mapping in stored order.  A scalar root gives the empty
    path, an empty container gives nothing. *)
Fixpoint leafPaths (value : JsonValue) : list JsonPath :=
  match value with
  | JUndefined => []
  | JNull | JBool _ | JNumber _ | JString _ => [[]]
  | JArray items =>
      flatMapi (λ item index, (SIdx index ::.) <$> leafPaths item) items 0
  | JObject entries =>
      flatMapi (λ '(key, child) _, (SKey key ::.) <$> leafPaths child) entries 0
  end.

(** The specification's text of a path, a dot-joined string: the segments,
    an index in decimal digits, with a dot between two of them. *)
Definition segmentText (seg : Segment) : string :=
  match seg with
  | SKey k => k
  | SIdx i => pretty i
  end.

Fixpoint dotJoined (segments : list string) : string :=
  match segments with
  | [] => ""
  | first :: others =>
      match others with
      | [] => first
      | _ :: _ => first +:+ "." +:+ dotJoined others
      end
  end.

Definition pathText (path : JsonPath) : string := dotJoined (segmentText <$> path).

(** ** The host application ([App.svelte]) *)

(** [s.split(sep)] for a one-character separator. *)
Fixpoint split (sep : ascii) (s : string) : list string :=
  match s with
  | EmptyString => [EmptyString]
  | String c s' =>
      if decide (c = sep) then EmptyString :: split sep s'
      else match split sep s' with
           | first :: others => String c first :: others
           | [] => [String c EmptyString]
           end
  end.

(** The inner loop of [computeImportant]: [result.add] of the first [i]
    segments joined, for [i] from 1 to their number. *)
Definition addPrefixes (segments : list string) (result : gset string) : gset string :=
  foldl (λ result i, {[ joinDot (take i segments) ]} ∪ result)
    result (seq 1 (length segments)).

(** [computeImportant]; [!path] holds of the empty string. *)
Definition computeImportant (value : JsonValue) : option (gset string) :=
  match collectPaths value [] with
  | None => None
  | Some rawPaths =>
      Some (foldl (λ result path,
                     if decide (path = "") then result
                     else addPrefixes (split "."%char path) result)
              ∅ rawPaths)
  end.

Inductive RunMode : Type := buildSpecLib | searchDia.

Global Instance RunMode_eq_dec : EqDecision RunMode.
Proof. solve_decision. Defined.

Inductive ConfigSource : Type := binary | partial | fallback.

Record ConfigState : Type := mkConfigState {
  defaults : JsonValue;
  current : JsonValue;
  important : gset string;
  source : ConfigSource;
  lastLoadedPath : option string;
  persistedPath : option string
}.

(** [configStates: Record<RunMode, ConfigState | null>] *)
Record ConfigStates : Type := mkConfigStates {
  ofBuildSpecLib : option ConfigState;
  ofSearchDia : option ConfigState
}.

(** The part of the component state that the configuration handlers use. *)
Record App : Type := mkApp {
  configStates : ConfigStates;
  runError : option string
}.

(** [configStates[mode]] *)
Definition stateOf (mode : RunMode) (states : ConfigStates) : option ConfigState :=
  match mode with
  | buildSpecLib => ofBuildSpecLib states
  | searchDia => ofSearchDia states
  end.

(** [{ ...configStates, [mode]: updated }] *)
Definition withState (mode : RunMode) (updated : ConfigState) (states : ConfigStates)
  : ConfigStates :=
  match mode with
  | buildSpecLib => mkConfigStates (Some updated) (ofSearchDia states)
  | searchDia => mkConfigStates (ofBuildSpecLib states) (Some updated)
  end.

(** [JSON.parse(JSON.stringify(value))] below the root: a number that is not
    finite becomes [null], the sign of zero is lost, an [undefined] element
    becomes [null] and an [undefined] property is left out. *)
Fixpoint jsonRoundTrip (value : JsonValue) : JsonValue :=
  match value with
  | JUndefined => JNull
  | JNull => JNull
  | JBool b => JBool b
  | JNumber n =>
      match n with
      | S754_finite _ _ _ => JNumber n
      | S754_zero _ => JNumber (S754_zero false)
      | S754_infinity _ | S754_nan => JNull
      end
  | JString s => JString s
  | JArray items => JArray (map jsonRoundTrip items)
  | JObject entries =>
      JObject (flat_map (λ '(key, child),
                           match child with
                           | JUndefined => []
                           | _ => [(key, jsonRoundTrip child)]
                           end) entries)
  end.

(** [clone]; [JSON.stringify(undefined)] is [undefined], which
    [JSON.parse] rejects with a [SyntaxError] ([None]). *)
Definition clone (value : JsonValue) : option JsonValue :=
  match value with
  | JUndefined => None
  | _ => Some (jsonRoundTrip value)
  end.

(** [handleUpdate] *)
Definition handleUpdate (mode : RunMode) (path : JsonPath) (value : JsonValue)
    (app : App) : App :=
  match stateOf mode (configStates app) with
  | None => app
  | Some state =>
      let updated :=
        mkConfigState (defaults state) (setValue (current state) path value)
          (important state) (source state) (lastLoadedPath state) (persistedPath state) in
      mkApp (withState mode updated (configStates app)) None
  end.

(** [loadConfigFromFile], from the answers of the file dialog ([selected],
    [None] when it is [null] or an array) and of [read_config] ([loaded]). *)
Definition loadConfigFromFile (mode : RunMode) (selected : option string)
    (loaded : JsonValue) (app : App) : App :=
  match selected with
  | None => app
  | Some selected =>
      if decide (selected = "") then app
      else
        match stateOf mode (configStates app) with
        | None => app
        | Some state =>
            let updated :=
              mkConfigState (defaults state) (deepMerge (defaults state) loaded)
                (important state) (source state) (Some selected) (persistedPath state) in
            mkApp (withState mode updated (configStates app)) None
        end
  end.

(** [resetToDefaults]; when [clone] throws, no assignment is made. *)
Definition resetToDefaults (mode : RunMode) (app : App) : App :=
  match stateOf mode (configStates app) with
  | None => app
  | Some state =>
      match clone (defaults state) with
      | None => app
      | Some fresh =>
          let updated :=
            mkConfigState (defaults state) fresh
              (important state) (source state) None (persistedPath state) in
          mkApp (withState mode updated (configStates app)) None
      end
  end.

(** The important set that a mode shows. *)
Definition importantOf (mode : RunMode) (app : App) : option (gset string) :=
  important <$> stateOf mode (configStates app).

(** ** The tree editor ([JsonEditor.svelte]) *)

(** [path.map(String).join('.')] ([JsonEditor.svelte]): the string under
    which a path is looked up in the important set. *)
Definition pathKey (path : JsonPath) : string := joinDot (segKey <$> path).

(** [Number.isNaN] *)
Definition isNaN (n : spec_float) : bool :=
  match n with
  | S754_nan => true
  | _ => false
  end.

(** [s.trimStart()] and [s.trimEnd()], for the white space and line
    terminators of the ASCII range. *)
Fixpoint trimStart (s : string) : string :=
  match s with
  | EmptyString => EmptyString
  | String c s' => if Ascii.is_space c then trimStart s' else s
  end.

Fixpoint trimEnd (s : string) : string :=
  match s with
  | EmptyString => EmptyString
  | String c s' =>
      match trimEnd s' with
      | EmptyString => if Ascii.is_space c then EmptyString else String c EmptyString
      | kept => String c kept
      end
  end.

(** [s.trim()] *)
Definition trim (s : string) : string := trimEnd (trimStart s).

(** A line of white space only, the empty line included: what the
    specification calls a blank line. *)
Fixpoint isBlank (s : string) : bool :=
  match s with
  | EmptyString => true
  | String c s' => Ascii.is_space c && isBlank s'
  end.

(** The notions of the specification for the text of a textarea. *)

(** The character occurs in the string. *)
Fixpoint occurs (c : ascii) (s : string) : bool :=
  match s with
  | EmptyString => false
  | String c' s' => bool_decide (c' = c) || occurs c s'
  end.

(** The lines of a text: the strings without a line break that give the
    text when they are put together with a line break between two. *)
Definition linesOf (text : string) (lines : list string) : Prop :=
  lines ≠ [] ∧
  Forall (λ line, occurs "010"%char line = false) lines ∧
  text = String.concat (String "010"%char "") lines.

(** A string that neither begins nor ends with white space. *)
Definition noSpaceAround (t : string) : Prop :=
  (∀ c rest, t = String c rest → Ascii.is_space c = false) ∧
  (∀ rest c, t = rest +:+ String c "" → Ascii.is_space c = false).

(** [t] is [line] trimmed: [line] without the white space at its two
    ends. *)
Definition trimmed (line t : string) : Prop :=
  noSpaceAround t ∧
  ∃ before after,
    line = before +:+ t +:+ after ∧ isBlank before = true ∧ isBlank after = true.

(** What a handler emits: its calls of [onUpdate(path, value)], in order. *)
Definition Updates : Type := list (JsonPath * JsonValue).

Section JsonEditor.

(** Functions of the platform: [Number(text)], and [JSON.parse(text)] with
    [None] for the [SyntaxError] it throws. *)
Variable Number : string → spec_float.
Variable JSON_parse : string → option JsonValue.

(** [handleBooleanChange], from [target.checked]. *)
Definition handleBooleanChange (path : JsonPath) (checked : bool) : Updates :=
  [(path, JBool checked)].

(** [handleNumberChange], from [target.value]. *)
Definition handleNumberChange (path : JsonPath) (text : string) : Updates :=
  let next := if decide (text = "") then JNull else JNumber (Number text) in
  [(path, next)].

(** [handleStringChange], from [target.value]. *)
Definition handleStringChange (path : JsonPath) (text : string) : Updates :=
  [(path, JString text)].

(** The callback of [lines.map] in [commitArrayChanges]. *)
Definition parseLine (line : string) : JsonValue :=
  if decide (line = "true" ∨ line = "false") then JBool (bool_decide (line = "true"))
  else
    let numeric := Number line in
    if negb (isNaN numeric) then JNumber numeric
    else
      match JSON_parse line with
      | Some parsed => parsed
      | None => JString line
      end.

(** [commitArrayChanges], from [target.value]. *)
Definition commitArrayChanges (path : JsonPath) (text : string) : Updates :=
  let lines :=
    filter (λ line, 0 < String.length line) (trim <$> split "010"%char text) in
  let parsed := parseLine <$> lines in
  [(path, JArray parsed)].

(** The value that the specification gives a trimmed line: a Boolean for
    the literals [true] and [false], a Number for a lexically valid number
    (one that [Number] does not make [NaN]), otherwise the parse of the line
    as a structured literal, and the line itself when there is none. *)
Inductive lineValue : string → JsonValue → Prop :=
  | lineValue_true : lineValue "true" (JBool true)
  | lineValue_false : lineValue "false" (JBool false)
  | lineValue_number line :
      line ≠ "true" → line ≠ "false" →
      Number line ≠ S754_nan →
      lineValue line (JNumber (Number line))
  | lineValue_parsed line parsed :
      line ≠ "true" → line ≠ "false" →
      Number line = S754_nan →
      JSON_parse line = Some parsed →
      lineValue line parsed
  | lineValue_raw line :
      line ≠ "true" → line ≠ "false" →
      Number line = S754_nan →
      JSON_parse line = None →
      lineValue line (JString line).

End JsonEditor.

(** ** Further notions for the path algebra *)

(** A write that keeps the shape of the tree: every container on the way to
    the target exists, and the target is an existing slot, a key of a
    mapping (present or not), or the index just past the end of an array. *)
Fixpoint fits (root : JsonValue) (path : JsonPath) : bool :=
  match path with
  | [] => true
  | head :: rest =>
      match root, head with
      | JArray items, SIdx i =>
          match rest with
          | [] => bool_decide (i ≤ length items)
          | _ :: _ =>
              match items !! i with
              | Some item => fits item rest
              | None => false
              end
          end
      | JObject entries, SKey k =>
          match rest with
          | [] => true
          | _ :: _ =>
              match lookupKey k entries with
              | Some child => fits child rest
              | None => false
              end
          end
      | _, _ => false
      end
  end.

(** A segment at which [setValue] gives up: below a scalar or [undefined],
    and for a key at an array. *)
Definition refused (node : JsonValue) (seg : Segment) : bool :=
  match node, seg with
  | JObject _, _ => false
  | JArray _, SIdx _ => false
  | JArray _, SKey _ => true
  | _, _ => true
  end.

(** No [undefined] anywhere in the value. *)
Fixpoint defined (v : JsonValue) : bool :=
  match v with
  | JUndefined => false
  | JNull | JBool _ | JNumber _ | JString _ => true
  | JArray items => forallb defined items
  | JObject entries => forallb (λ e, defined e.2) entries
  end.

(** No array in the value has an [undefined] element: none has a hole, and
    none holds [undefined] itself. *)
Fixpoint dense (v : JsonValue) : bool :=
  match v with
  | JArray items =>
      forallb (λ item, match item with
                       | JUndefined => false
                       | _ => dense item
                       end) items
  | JObject entries => forallb (λ e, dense e.2) entries
  | _ => true
  end.

(** The keys of every mapping in the value are distinct, as they are in any
    JavaScript object. *)
Fixpoint keysDistinct (v : JsonValue) : bool :=
  match v with
  | JArray items => forallb keysDistinct items
  | JObject entries =>
      bool_decide (NoDup (keys entries)) && forallb (λ e, keysDistinct e.2) entries
  | _ => true
  end.

(** A final segment that names nothing at a node: a key that a mapping
    lacks (an index stands for its decimal string there), an index past the
    end of an array, a key at an array, anything at a scalar or at
    [undefined]. *)
Definition nothingAt (node : JsonValue) (seg : Segment) : bool :=
  match node, seg with
  | JObject entries, _ => bool_decide (segKey seg ∉ keys entries)
  | JArray items, SIdx i => bool_decide (length items ≤ i)
  | JArray _, SKey _ => true
  | _, _ => true
  end.


(** ** Further parts of the host application ([App.svelte]) *)

(** A number that [JSON.stringify] writes and [JSON.parse] reads back:
    finite, and not the negative zero. *)
Definition plainNumber (n : spec_float) : bool :=
  match n with
  | S754_finite _ _ _ => true
  | S754_zero negative => negb negative
  | S754_infinity _ | S754_nan => false
  end.

(** A value that a JSON text denotes: no [undefined] and only such
    numbers. *)
Fixpoint plain (v : JsonValue) : bool :=
  match v with
  | JUndefined => false
  | JNull | JBool _ | JString _ => true
  | JNumber n => plainNumber n
  | JArray items => forallb plain items
  | JObject entries => forallb (λ e, plain e.2) entries
  end.

(** [response.build], [response.search]: a [ConfigSet].  An absent
    [persisted_config] is [JUndefined]; [persisted_path] is [None] when it
    is absent or [null]. *)
Record ConfigSet : Type := mkConfigSet {
  default_config : JsonValue;
  simplified_config : JsonValue;
  persisted_config : JsonValue;
  persisted_path : option string
}.

Record LoadConfigsResponse : Type := mkLoadConfigsResponse {
  build : ConfigSet;
  search : ConfigSet;
  response_source : ConfigSource;
  binary_error : option string
}.

(** [a ?? b] *)
Definition coalesce (a b : JsonValue) : JsonValue :=
  match a with
  | JUndefined | JNull => b
  | _ => a
  end.

(** The truth value that a condition gives a value. *)
Definition truthy (v : JsonValue) : bool :=
  match v with
  | JUndefined | JNull => false
  | JBool b => b
  | JNumber n =>
      match n with
      | S754_zero _ | S754_nan => false
      | _ => true
      end
  | JString s => negb (bool_decide (s = ""))
  | JArray _ | JObject _ => true
  end.

(** The state that [initialiseState] makes for one mode. *)
Definition initialState (set : ConfigSet) (source : ConfigSource) : option ConfigState :=
  important ← computeImportant (simplified_config set);
  defaults ← clone (default_config set);
  current ← clone (coalesce (persisted_config set) (default_config set));
  let lastLoaded :=
    if truthy (persisted_config set) then persisted_path set else None in
  Some (mkConfigState defaults current important source lastLoaded (persisted_path set)).

(** [initialiseState], as the [configStates] it assigns; [None] when
    [computeImportant] or [clone] throws, in which case no assignment to
    [configStates] is made.  (The assignments to [configSource] and
    [binaryError] are to variables that are not modelled.) *)
Definition initialiseState (response : LoadConfigsResponse) : option ConfigStates :=
  buildState ← initialState (build response) (response_source response);
  searchState ← initialState (search response) (response_source response);
  Some (mkConfigStates (Some buildState) (Some searchState)).

(** What the panel of a mode can do to the configuration: an edit coming
    from the editor, a file loaded, a reset. *)
Inductive Action : Type :=
  | Edit (mode : RunMode) (path : JsonPath) (value : JsonValue)
  | LoadFile (mode : RunMode) (selected : option string) (loaded : JsonValue)
  | Reset (mode : RunMode).

Definition act (action : Action) (app : App) : App :=
  match action with
  | Edit mode path value => handleUpdate mode path value app
  | LoadFile mode selected loaded => loadConfigFromFile mode selected loaded app
  | Reset mode => resetToDefaults mode app
  end.

(** An action on values of the declared type: an edit writes such a value
    where it fits the current configuration, a loaded file is such a
    value. *)
Definition wellFormed (action : Action) (app : App) : Prop :=
  match action with
  | Edit mode path value =>
      is_json value = true ∧
      ∀ state, stateOf mode (configStates app) = Some state →
               fits (current state) path = true
  | LoadFile _ _ loaded => is_json loaded = true
  | Reset _ => True
  end.

(** The states reached from [app] by such actions. *)
Inductive reaches (app : App) : App → Prop :=
  | reaches_here : reaches app app
  | reaches_act action app' :
      reaches app app' → wellFormed action app' → reaches app (act action app').

(** What every state of a mode keeps: [defaults] and [current] are values
    of the declared type, and [defaults] is its own clone. *)
Definition sound (state : ConfigState) : Prop :=
  is_json (defaults state) = true ∧
  is_json (current state) = true ∧
  clone (defaults state) = Some (defaults state).

(** The mode whose panel an action comes from. *)
Definition modeOf (action : Action) : RunMode :=
  match action with
  | Edit mode _ _ | LoadFile mode _ _ | Reset mode => mode
  end.

(** [response.build] or [response.search], by mode. *)
Definition configSetOf (mode : RunMode) (response : LoadConfigsResponse) : ConfigSet :=
  match mode with
  | buildSpecLib => build response
  | searchDia => search response
  end.

(** ** Further parts of the tree editor ([JsonEditor.svelte]) *)

(** The control that the template shows for a value: a read-only field for
    [null], a checkbox, a number field, a text field, one textarea for an
    array of scalars, and nothing of its own for the containers whose
    children it shows. *)
Inductive Control : Type :=
  | NullField
  | Checkbox (checked : bool)
  | NumberField (n : spec_float)
  | TextField (s : string)
  | Textarea (items : list JsonValue)
  | Group.

(** One instance of the component: its props and its control. *)
Record Node : Type := mkNode {
  nodeLabel : string;
  nodePath : JsonPath;
  nodeDepth : nat;
  nodeImportant : bool;
  nodeControl : Control
}.

(** The control for a value that is not [undefined];
    [arrayHasOnlyPrimitives] holds of the empty array. *)
Definition controlOf (value : JsonValue) : Control :=
  match value with
  | JUndefined => Group
  | JNull => NullField
  | JBool b => Checkbox b
  | JNumber n => NumberField n
  | JString s => TextField s
  | JArray items => if forallb isPrimitive items then Textarea items else Group
  | JObject _ => Group
  end.

(** The template, mounted on a value: the instances it creates, in
    document order, each with the flag [isImportant] that it computes once,
    when it is created.  [None] is the [TypeError] of
    [Object.entries(value)] for an [undefined] value.  ([every] skips the
    holes of an array, which is not modelled: an array with an [undefined]
    element is taken to hold [undefined] there.) *)
Fixpoint render (important : gset string) (value : JsonValue) (label : string)
    (path : JsonPath) (depth : nat) : option (list Node) :=
  let self :=
    mkNode label path depth (bool_decide (pathKey path ∈ important)) (controlOf value) in
  match value with
  | JUndefined => None
  | JNull | JBool _ | JNumber _ | JString _ => Some [self]
  | JArray items =>
      if forallb isPrimitive items then Some [self]
      else
        match flatMapIdx (λ item index,
                            render important item ("[" +:+ pretty index +:+ "]")
                              (path ++ [SIdx index]) (S depth)) items 0 with
        | None => None
        | Some children => Some (self :: children)
        end
  | JObject entries =>
      match flatMapIdx (λ '(key, child) _,
                          render important child key (path ++ [SKey key]) (S depth))
              entries 0 with
      | None => None
      | Some children => Some (self :: children)
      end
  end.

Section JsonEditorEvents.

Variable Number : string → spec_float.
Variable JSON_parse : string → option JsonValue.

(** The calls of [onUpdate] that the control of a node can make: the
    handler bound to the control, on any input. *)
Inductive emits (node : Node) : JsonPath * JsonValue → Prop :=
  | emits_checkbox checked checked' update :
      nodeControl node = Checkbox checked →
      update ∈ handleBooleanChange (nodePath node) checked' →
      emits node update
  | emits_number n text update :
      nodeControl node = NumberField n →
      update ∈ handleNumberChange Number (nodePath node) text →
      emits node update
  | emits_text s text update :
      nodeControl node = TextField s →
      update ∈ handleStringChange (nodePath node) text →
      emits node update
  | emits_textarea items text update :
      nodeControl node = Textarea items →
      update ∈ commitArrayChanges Number JSON_parse (nodePath node) text →
      emits node update.

End JsonEditorEvents.

Section JsonEditorText.

(** Functions of the platform: [String(n)] for a number, and
    [JSON.stringify(value)] without and with an indentation of two. *)
Variable numberToString : spec_float → string.
Variable JSON_stringify : JsonValue → string.
Variable JSON_stringify_indented : JsonValue → string.

(** [stringifyValue] ([src/lib/utils.ts]) *)
Fixpoint stringifyValue (value : JsonValue) : string :=
  match value with
  | JArray items => String.concat ", " (map stringifyValue items)
  | JNull => "null"
  | JObject _ => JSON_stringify_indented value
  | JUndefined => "undefined"
  | JBool b => if b then "true" else "false"
  | JNumber n => numberToString n
  | JString s => s
  end.

(** [typeof item === 'object'] *)
Definition typeofObject (item : JsonValue) : bool :=
  match item with
  | JNull | JArray _ | JObject _ => true
  | _ => false
  end.

(** The line that [arrayText] has for an item. *)
Definition itemText (item : JsonValue) : string :=
  if typeofObject item then JSON_stringify item else stringifyValue item.

(** [arrayText], the text that the textarea shows for an array. *)
Definition arrayText (items : list JsonValue) : string :=
  String.concat (String "010"%char "") (map itemText items).

End JsonEditorText.

Section JsonEditorRoundTrip.

Variable Number : string → spec_float.
Variable JSON_parse : string → option JsonValue.
Variable numberToString : spec_float → string.
Variable JSON_stringify : JsonValue → string.
Variable JSON_stringify_indented : JsonValue → string.

(** An item whose own line is read back as the item: the line has no line
    break, is not blank, and, trimmed, is parsed to the item. *)
Definition readsBack (item : JsonValue) : Prop :=
  let line := itemText numberToString JSON_stringify JSON_stringify_indented item in
  split "010"%char line = [line] ∧
  isBlank line = false ∧
  parseLine Number JSON_parse (trim line) = item.

End JsonEditorRoundTrip.

(** ** Keys that the dot-joined strings can tell apart *)

(** A key that is not empty and has no dot. *)
Definition plainKey (k : string) : bool :=
  bool_decide (k ≠ "") && bool_decide (split "."%char k = [k]).

(** Every key of every mapping in the value is such a key. *)
Fixpoint plainKeys (v : JsonValue) : bool :=
  match v with
  | JArray items => forallb plainKeys items
  | JObject entries => forallb (λ e, plainKey e.1 && plainKeys e.2) entries
  | _ => true
  end.

(** ** The log preview ([App.svelte]) *)

Inductive Stream : Type := stdout | stderr.

(** [LogPayload] *)
Record LogPayload : Type := mkLogPayload {
  logMode : RunMode;
  logStream : Stream;
  logLine : string
}.

Definition maxLogEntries : nat := 120.

(** [arr.slice(-n)]: the last [n] elements, all of them when there are
    fewer. *)
Definition sliceLast {A} (n : nat) (l : list A) : list A := drop (length l - n) l.

(** The guard of the listeners:
    [progressState.mode && payload.mode !== progressState.mode]. *)
Definition otherRun (running : option RunMode) (mode : RunMode) : bool :=
  match running with
  | Some current => bool_decide (mode ≠ current)
  | None => false
  end.

(** The listener of [pioneer-log], as the [logBuffer] it leaves;
    [running] is [progressState.mode]. *)
Definition onLog (running : option RunMode) (logBuffer : list LogPayload)
    (payload : LogPayload) : list LogPayload :=
  if otherRun running (logMode payload) then logBuffer
  else sliceLast maxLogEntries (logBuffer ++ [payload]).

(** Two paths that part at some container: after a common beginning, their
    next segments differ. *)
Inductive parts : JsonPath → JsonPath → Prop :=
  | parts_here s t p q : s ≠ t → parts (s :: p) (t :: q)
  | parts_below s p q : parts p q → parts (s :: p) (s :: q).

(** * Properties *)

(** ** Entry lists and arrays *)

Lemma lookupKey_None key entries : lookupKey key entries = None ↔ key ∉ keys entries.
Proof.
  induction entries as [|[k v] rest IH]; simpl.
  - split; [intros _; apply not_elem_of_nil | done].
  - rewrite not_elem_of_cons. case_decide; subst.
    + split; [done | intros [? _]; done].
    + rewrite IH. split; [intros ?; split; [congruence | done] | intros [_ ?]; done].
Qed.

Lemma lookupKey_Some_keys key child entries :
  lookupKey key entries = Some child → key ∈ keys entries.
Proof.
  intros Hk. destruct (decide (key ∈ keys entries)) as [|Hn]; [done|].
  apply lookupKey_None in Hn. congruence.
Qed.

Lemma keys_app (l1 l2 : Entries) : keys (l1 ++ l2) = keys l1 ++ keys l2.
Proof. apply fmap_app. Qed.

Lemma keys_cons k v (rest : Entries) : keys ((k, v) :: rest) = k :: keys rest.
Proof. done. Qed.

(** An entry in the middle of a list, under a key that does not occur
    before it. *)
Lemma lookupKey_middle_eq key value (before after : Entries) :
  key ∉ keys before → lookupKey key (before ++ (key, value) :: after) = Some value.
Proof.
  induction before as [|[k v] before IH].
  - intros _. simpl. by rewrite decide_True.
  - rewrite keys_cons, not_elem_of_cons. intros [Hne Hin]. simpl.
    rewrite decide_False by congruence. by apply IH.
Qed.

Lemma lookupKey_middle_ne key key' value (before after : Entries) :
  key ≠ key' →
  lookupKey key' (before ++ (key, value) :: after) = lookupKey key' (before ++ after).
Proof.
  intros Hne. induction before as [|[k v] before IH]; simpl.
  - by rewrite decide_False.
  - by rewrite IH.
Qed.

Lemma replaceProp_middle key old value (before after : Entries) :
  key ∉ keys before →
  replaceProp key value (before ++ (key, old) :: after) = before ++ (key, value) :: after.
Proof.
  induction before as [|[k v] before IH].
  - intros _. simpl. by rewrite decide_True.
  - rewrite keys_cons, not_elem_of_cons. intros [Hne Hin]. simpl.
    rewrite decide_False by congruence. by rewrite IH.
Qed.

Lemma deleteProp_middle key value (before after : Entries) :
  key ∉ keys before →
  deleteProp key (before ++ (key, value) :: after) = before ++ after.
Proof.
  induction before as [|[k v] before IH].
  - intros _. simpl. by rewrite decide_True.
  - rewrite keys_cons, not_elem_of_cons. intros [Hne Hin]. simpl.
    rewrite decide_False by congruence. by rewrite IH.
Qed.

(** An own key has its entry somewhere, and nowhere before. *)
Lemma lookupKey_Some_split key old entries :
  lookupKey key entries = Some old →
  ∃ before after, entries = before ++ (key, old) :: after ∧ key ∉ keys before.
Proof.
  induction entries as [|[k v] rest IH]; simpl; [done|].
  case_decide; subst.
  - intros [= ->]. exists [], rest. split; [done|]. apply not_elem_of_nil.
  - intros (before & after & -> & Hin)%IH. exists ((k, v) :: before), after.
    split; [done|]. rewrite keys_cons, not_elem_of_cons. split; [congruence|done].
Qed.

Lemma insertIndex_split index key entries :
  ∃ before after,
    entries = before ++ after ∧
    ∀ value, insertIndex index key value entries = before ++ (key, value) :: after.
Proof.
  induction entries as [|[k v] rest IH]; simpl.
  - by exists [], [].
  - destruct (arrayIndex k) as [i|]; [case_decide|].
    + destruct IH as (before & after & -> & Hins). exists ((k, v) :: before), after.
      split; [done|]. intros value. by rewrite Hins.
    + by exists [], ((k, v) :: rest).
    + by exists [], ((k, v) :: rest).
Qed.

(** The two ways in which [assign] changes the entries: an own key is
    overwritten where it is, and a new key other than [__proto__] is put at
    some place among the entries, which stay as they are. *)
Lemma assign_own key old entries :
  lookupKey key entries = Some old →
  ∃ before after,
    entries = before ++ (key, old) :: after ∧ (key ∉ keys before) ∧
    (∀ value, assign key value entries = before ++ (key, value) :: after).
Proof.
  intros Hk. destruct (lookupKey_Some_split _ _ _ Hk) as (before & after & -> & Hin).
  exists before, after. split; [done|]. split; [done|]. intros value.
  unfold assign. rewrite Hk. by apply replaceProp_middle.
Qed.

Lemma assign_new key entries :
  lookupKey key entries = None → key ≠ "__proto__" →
  ∃ before after,
    entries = before ++ after ∧
    ∀ value, assign key value entries = before ++ (key, value) :: after.
Proof.
  intros Hk Hproto. destruct (arrayIndex key) as [index|] eqn:Hindex.
  - destruct (insertIndex_split index key entries) as (before & after & -> & Hins).
    exists before, after. split; [done|]. intros value. unfold assign.
    by rewrite Hk, decide_False, Hindex.
  - exists entries, []. split; [by rewrite app_nil_r|]. intros value. unfold assign.
    by rewrite Hk, decide_False, Hindex.
Qed.

Lemma assign_proto value entries :
  lookupKey "__proto__" entries = None → assign "__proto__" value entries = entries.
Proof. intros Hk. unfold assign. by rewrite Hk. Qed.

Lemma assign_absent key value entries :
  lookupKey key entries = None → key ≠ "__proto__" → arrayIndex key = None →
  assign key value entries = entries ++ [(key, value)].
Proof. intros Hk Hproto Hindex. unfold assign. by rewrite Hk, decide_False, Hindex. Qed.

Lemma lookupKey_assign_own key old value entries :
  lookupKey key entries = Some old → lookupKey key (assign key value entries) = Some value.
Proof.
  intros (before & after & -> & Hin & ->)%assign_own. by apply lookupKey_middle_eq.
Qed.

Lemma lookupKey_assign_new key value entries :
  key ≠ "__proto__" → lookupKey key (assign key value entries) = Some value.
Proof.
  intros Hproto. destruct (lookupKey key entries) as [old|] eqn:Hk.
  - by eapply lookupKey_assign_own.
  - destruct (assign_new _ _ Hk Hproto) as (before & after & -> & ->).
    apply lookupKey_middle_eq. apply lookupKey_None in Hk.
    rewrite keys_app, not_elem_of_app in Hk. by destruct Hk.
Qed.

Lemma lookupKey_assign_ne key key' value entries :
  key ≠ key' → lookupKey key' (assign key value entries) = lookupKey key' entries.
Proof.
  intros Hne. destruct (lookupKey key entries) as [old|] eqn:Hk.
  - destruct (assign_own _ _ _ Hk) as (before & after & -> & _ & ->).
    by rewrite !lookupKey_middle_ne.
  - destruct (decide (key = "__proto__")) as [->|Hproto]; [by rewrite assign_proto|].
    destruct (assign_new _ _ Hk Hproto) as (before & after & -> & ->).
    by rewrite lookupKey_middle_ne.
Qed.

Lemma prop_assign_own key old value entries :
  lookupKey key entries = Some old → prop key (assign key value entries) = value.
Proof. intros Hk. unfold prop. by erewrite lookupKey_assign_own. Qed.

Lemma prop_assign_new key value entries :
  key ≠ "__proto__" → prop key (assign key value entries) = value.
Proof. intros Hk. unfold prop. by rewrite lookupKey_assign_new. Qed.

Lemma prop_assign_ne key key' value entries :
  key ≠ key' → prop key' (assign key value entries) = prop key' entries.
Proof. intros. unfold prop. by rewrite lookupKey_assign_ne. Qed.

(** Where the accessor [__proto__] is assigned, nothing is read back. *)
Lemma prop_assign_proto value entries :
  lookupKey "__proto__" entries = None →
  prop "__proto__" (assign "__proto__" value entries) = JUndefined.
Proof. intros Hk. rewrite assign_proto by done. unfold prop. by rewrite Hk. Qed.

Lemma inherited_proto key : inherited key = false → key ≠ "__proto__".
Proof. intros Hk ->. done. Qed.

(** The order of the keys, as JavaScript has it: an array index is created
    among the array indices, any other key last, and [__proto__] not at
    all. *)
Example assign_scenario :
  arrayIndex "7" = Some 7%N ∧ arrayIndex "07" = None ∧ arrayIndex "4294967295" = None ∧
  assign "7" (JInt 2) [("b", JInt 1)] = [("7", JInt 2); ("b", JInt 1)] ∧
  assign "7" (JInt 2) [("3", JNull); ("9", JNull); ("b", JInt 1)]
    = [("3", JNull); ("7", JInt 2); ("9", JNull); ("b", JInt 1)] ∧
  assign "c" (JInt 2) [("3", JNull); ("b", JInt 1)]
    = [("3", JNull); ("b", JInt 1); ("c", JInt 2)] ∧
  assign "__proto__" (JInt 2) [("b", JInt 1)] = [("b", JInt 1)] ∧
  assign "__proto__" (JInt 2) [("__proto__", JNull); ("b", JInt 1)]
    = [("__proto__", JInt 2); ("b", JInt 1)].
Proof. repeat split. Qed.

Lemma elem_store_eq index value items : elem index (store index value items) = value.
Proof.
  unfold elem, store. case_decide.
  - by rewrite list_lookup_insert_eq.
  - rewrite lookup_app_r by lia.
    rewrite lookup_app_r by (rewrite length_replicate; lia).
    rewrite length_replicate. by replace (_ - _ - _) with 0 by lia.
Qed.

Lemma elem_store_ne index index' value items :
  index ≠ index' → elem index' (store index value items) = elem index' items.
Proof.
  intros Hne. unfold elem, store. case_decide.
  - by rewrite list_lookup_insert_ne.
  - destruct (decide (index' < length items)).
    + by rewrite lookup_app_l.
    + rewrite (lookup_ge_None_2 items) by lia.
      rewrite lookup_app_r by lia.
      destruct (decide (index' < index)).
      * rewrite lookup_app_l by (rewrite length_replicate; lia).
        rewrite lookup_replicate_2 by lia. done.
      * rewrite lookup_ge_None_2; [done|].
        rewrite length_app, length_replicate. simpl. lia.
Qed.

(** ** Strings *)

Lemma split_not_nil sep s : split sep s ≠ [].
Proof.
  destruct s as [|c s]; simpl; [done|].
  case_decide; [done|]. by destruct (split sep s).
Qed.

Lemma joinDot_cons first others :
  others ≠ [] → joinDot (first :: others) = first +:+ "." +:+ joinDot others.
Proof. by destruct others. Qed.

(** Splitting at the dots and joining with dots gives the string back. *)
Lemma joinDot_split s : joinDot (split "."%char s) = s.
Proof.
  induction s as [|c s IH]; [done|]. simpl. case_decide; subst.
  - rewrite joinDot_cons by apply split_not_nil. by rewrite IH.
  - destruct (split "."%char s) as [|first others] eqn:Hs.
    + by apply split_not_nil in Hs.
    + destruct others; [simpl in *; by subst|].
      rewrite joinDot_cons in IH by done. rewrite joinDot_cons by done.
      by rewrite <-IH.
Qed.

Lemma split_single_cons sep c s :
  split sep (String c s) = [String c s] → c ≠ sep ∧ split sep s = [s].
Proof.
  simpl. case_decide; [done|].
  destruct (split sep s) as [|first others] eqn:Hs; [by apply split_not_nil in Hs|].
  intros [= -> ->]. done.
Qed.

Lemma split_append sep s t :
  split sep s = [s] → split sep (s +:+ String sep t) = s :: split sep t.
Proof.
  induction s as [|c s IH]; intros Hs.
  - simpl. by rewrite decide_True.
  - apply split_single_cons in Hs as [Hc Hs]. simpl.
    rewrite decide_False by done. by rewrite (IH Hs).
Qed.

Lemma split_concat sep (lines : list string) :
  lines ≠ [] → Forall (λ line, split sep line = [line]) lines →
  split sep (String.concat (String sep "") lines) = lines.
Proof.
  intros Hne Hall. induction Hall as [|line rest Hline Hrest IH]; [done|].
  destruct rest as [|next rest]; [done|].
  change (String.concat (String sep "") (line :: next :: rest))
    with (line +:+ String sep (String.concat (String sep "") (next :: rest))).
  rewrite split_append by done. by rewrite IH.
Qed.

Lemma pretty_N_char_no_dot x : pretty_N_char x ≠ "."%char.
Proof. unfold pretty_N_char. by repeat case_match. Qed.

Lemma pretty_N_go_plain x s :
  split "."%char s = [s] →
  split "."%char (pretty_N_go x s) = [pretty_N_go x s] ∧
  String.length s ≤ String.length (pretty_N_go x s).
Proof.
  revert s. induction (N.lt_wf_0 x) as [x _ IH]; intros s Hs.
  assert (x = 0 ∨ 0 < x)%N as [->|Hpos] by lia.
  - by rewrite pretty_N_go_0.
  - rewrite pretty_N_go_step by done.
    destruct (IH (x `div` 10)%N (N.div_lt x 10 Hpos eq_refl)
                (String (pretty_N_char (x `mod` 10)) s)) as [Hsplit Hlen].
    + simpl. rewrite decide_False by apply pretty_N_char_no_dot. by rewrite Hs.
    + split; [done|]. simpl in Hlen. lia.
Qed.

Lemma pretty_nat_plain (i : nat) : plainKey (pretty i) = true.
Proof.
  unfold plainKey, pretty, pretty_nat, pretty, pretty_N.
  case_decide; [done|].
  assert (0 < N.of_nat i)%N as Hpos by lia.
  rewrite pretty_N_go_step by done.
  destruct (pretty_N_go_plain (N.of_nat i `div` 10)
              (String (pretty_N_char (N.of_nat i `mod` 10)) "")) as [Hsplit Hlen].
  { simpl. by rewrite decide_False by apply pretty_N_char_no_dot. }
  apply andb_true_iff. split; apply bool_decide_eq_true; [|done].
  intros Hempty. rewrite Hempty in Hlen. simpl in Hlen. lia.
Qed.

Lemma plainKey_spec k : plainKey k = true ↔ k ≠ "" ∧ split "."%char k = [k].
Proof. unfold plainKey. by rewrite andb_true_iff, !bool_decide_eq_true. Qed.

Lemma append_cons c (s t : string) : String c s +:+ t = String c (s +:+ t).
Proof. done. Qed.

Lemma append_assoc (s t u : string) : (s +:+ t) +:+ u = s +:+ t +:+ u.
Proof. induction s as [|c s IH]; [done|]. by rewrite !append_cons, IH. Qed.

Lemma append_nil_r (s : string) : s +:+ "" = s.
Proof. induction s as [|c s IH]; [done|]. by rewrite append_cons, IH. Qed.

Lemma joinDot_app (pre suf : list string) :
  pre ≠ [] → suf ≠ [] →
  joinDot (pre ++ suf) = joinDot pre +:+ "." +:+ joinDot suf.
Proof.
  intros Hpre Hsuf. induction pre as [|first pre IH]; [done|].
  destruct pre as [|next pre].
  - simpl app. by rewrite joinDot_cons.
  - rewrite <-app_comm_cons, joinDot_cons by done.
    rewrite IH, (joinDot_cons first) by done. by rewrite !append_assoc.
Qed.

Lemma split_app_sep sep s t :
  split sep (s +:+ String sep t) = split sep s ++ split sep t.
Proof.
  induction s as [|c s IH].
  - simpl. by rewrite decide_True.
  - rewrite append_cons. simpl. case_decide; [by rewrite IH|]. rewrite IH.
    destruct (split sep s) as [|first others] eqn:Hs; [by apply split_not_nil in Hs|].
    done.
Qed.

(** The joins of the non-empty runs of leading segments of a string, cut at
    its dots, are the string itself and its beginnings that end just before
    a dot. *)
Lemma leading_segments (str s : string) :
  (∃ pre, pre ≠ [] ∧ pre `prefix_of` split "."%char str ∧ s = joinDot pre)
  ↔ s = str ∨ ∃ rest, str = s +:+ "." +:+ rest.
Proof.
  split.
  - intros (pre & Hne & [suf Hsplit] & ->).
    pose proof (joinDot_split str) as Hjoin. rewrite Hsplit in Hjoin.
    destruct suf as [|next suf].
    + left. by rewrite app_nil_r in Hjoin.
    + right. exists (joinDot (next :: suf)). by rewrite <-Hjoin, joinDot_app.
  - intros [->|[rest ->]].
    + exists (split "."%char str). split; [apply split_not_nil|].
      split; [done|]. by rewrite joinDot_split.
    + exists (split "."%char s). split; [apply split_not_nil|]. split.
      * change ("." +:+ rest) with (String "."%char rest). rewrite split_app_sep.
        by eexists.
      * by rewrite joinDot_split.
Qed.

(** ** [getValue] *)

Lemma getValue_cons root head rest :
  getValue root (head :: rest) = getValue (getStep root head) rest.
Proof. done. Qed.

Lemma getValue_app root pre post :
  getValue root (pre ++ post) = getValue (getValue root pre) post.
Proof. apply foldl_app. Qed.

Lemma getValue_undefined path : getValue JUndefined path = JUndefined.
Proof. induction path; [done|]. by rewrite getValue_cons. Qed.

Lemma getValue_primitive root path : isPrimitive root = true → getValue root path = root.
Proof.
  intros Hp. induction path as [|head rest IH]; [done|].
  rewrite getValue_cons. by destruct root.
Qed.


(** ** [setValue] *)

Lemma setValue_nil root value : setValue root [] value = value.
Proof. by destruct root. Qed.

Lemma setValue_object entries head rest value :
  setValue (JObject entries) (head :: rest) value =
  JObject (assign (segKey head) (setValue (prop (segKey head) entries) rest value) entries).
Proof. destruct rest; [by rewrite setValue_nil | done]. Qed.

Lemma setValue_undefined head rest value :
  setValue JUndefined (head :: rest) value = JUndefined.
Proof. done. Qed.

(** A container reached by [getValue] is reached through containers of the
    kinds the segments need, so what is written below it is found below it. *)
Lemma written_below_container root pre node post q value :
  getValue root pre = node →
  isPrimitive node = false → node ≠ JUndefined →
  getValue (setValue root (pre ++ post) value) (pre ++ q) =
  getValue (setValue node post value) q.
Proof.
  revert root. induction pre as [|head pre IH]; intros root Hget Hprim Hdef.
  - simpl in Hget. by subst.
  - rewrite getValue_cons in Hget. simpl app.
    destruct root as [| | | | |items|entries].
    1: rewrite getValue_undefined in Hget; congruence.
    1-4: rewrite getValue_primitive in Hget by done; by subst.
    + destruct head as [k|i].
      * simpl in Hget. rewrite getValue_undefined in Hget. congruence.
      * simpl setValue. rewrite getValue_cons. simpl getStep.
        rewrite elem_store_eq. by apply IH.
    + destruct head as [k|i].
      * rewrite setValue_object, getValue_cons. simpl. simpl in Hget.
        unfold prop in Hget. destruct (lookupKey k entries) as [child|] eqn:Hk.
        -- erewrite prop_assign_own by done. unfold prop. rewrite Hk. by apply IH.
        -- simpl in Hget. rewrite getValue_undefined in Hget. congruence.
      * simpl in Hget. rewrite getValue_undefined in Hget. congruence.
Qed.

(** *** C1 *)

(** C1, as the code has it.  Let [pre] lead to a mapping that lacks the key
    [k], which is none of the names inherited from [Object.prototype].
    Writing at [k] itself creates the key, which then holds the value; the
    key comes after the entries the mapping has, unless it is an array
    index.  Writing further below [k] creates no mapping there: neither the
    path nor its prefix ending at [k] leads to a value afterwards, and
    [value] is not stored. *)
Theorem setValue_missing_key (root : JsonValue) (pre : JsonPath) (entries : Entries)
    (k : string) (seg : Segment) (rest : JsonPath) (value : JsonValue) :
  getValue root pre = JObject entries →
  k ∉ keys entries →
  inherited k = false →
  (arrayIndex k = None →
     setValue (JObject entries) [SKey k] value = JObject (entries ++ [(k, value)])) ∧
  getValue (setValue root (pre ++ [SKey k]) value) (pre ++ [SKey k]) = value ∧
  getValue (setValue root (pre ++ SKey k :: seg :: rest) value) (pre ++ [SKey k])
    = JUndefined ∧
  getValue (setValue root (pre ++ SKey k :: seg :: rest) value)
    (pre ++ SKey k :: seg :: rest) = JUndefined.
Proof.
  intros Hget Hk%lookupKey_None Hproto%inherited_proto.
  split; [intros Hindex; simpl; by rewrite assign_absent|].
  assert (prop k entries = JUndefined) as Hprop by (unfold prop; by rewrite Hk).
  rewrite !(written_below_container _ _ _ _ _ _ Hget) by done.
  rewrite !setValue_object. simpl segKey.
  rewrite Hprop, setValue_nil, setValue_undefined.
  rewrite !getValue_cons. simpl getStep. rewrite !prop_assign_new by done.
  repeat split. apply getValue_undefined.
Qed.

Lemma setValue_missing_key_witness :
  setValue (JObject []) [SKey "b"] (JInt 1) = JObject ([] ++ [("b", JInt 1)]) ∧
  getValue (setValue (JObject [("a", JObject [])]) [SKey "a"; SKey "b"] (JInt 1))
    [SKey "a"; SKey "b"] = JInt 1 ∧
  getValue (setValue (JObject [("a", JObject [])]) [SKey "a"; SKey "b"; SKey "c"] (JInt 1))
    [SKey "a"; SKey "b"] = JUndefined ∧
  getValue (setValue (JObject [("a", JObject [])]) [SKey "a"; SKey "b"; SKey "c"] (JInt 1))
    [SKey "a"; SKey "b"; SKey "c"] = JUndefined.
Proof.
  destruct (setValue_missing_key (JObject [("a", JObject [])]) [SKey "a"] [] "b"
              (SKey "c") [] (JInt 1)) as (Hlast & Hrest).
  - reflexivity.
  - apply not_elem_of_nil.
  - reflexivity.
  - split; [apply Hlast; reflexivity | exact Hrest].
Defined.

(** C1 as the specification words it fails: below a missing key no mapping
    is made, and the value is not found at the path. *)
Lemma setValue_no_synthesis :
  getValue (setValue (JObject []) [SKey "a"; SKey "b"] (JInt 1)) [SKey "a"; SKey "b"]
    ≠ JInt 1.
Proof. discriminate. Qed.

(** *** C2 *)




(** *** C3 *)

(** C3, under the precondition of [setValue] and for a path without the
    key [__proto__]: when every container on the way to the target exists
    with the kind its segment needs, reading the path after writing it
    gives the written value. *)
Theorem getValue_setValue (root : JsonValue) (path : JsonPath) (value : JsonValue) :
  settable root path = true →
  SKey "__proto__" ∉ path →
  getValue (setValue root path value) path = value.
Proof.
  revert root. induction path as [|head rest IH]; intros root Hs Hproto.
  - by rewrite setValue_nil.
  - apply not_elem_of_cons in Hproto as [Hhead Hrest].
    destruct root as [| | | | |items|entries], head as [k|i]; simpl in Hs; try done.
    + simpl setValue. rewrite getValue_cons. simpl getStep.
      rewrite elem_store_eq. by apply IH.
    + rewrite setValue_object, getValue_cons. simpl.
      rewrite prop_assign_new by congruence. by apply IH.
Qed.

Lemma getValue_setValue_witness :
  getValue (setValue (JObject [("a", JObject [("b", JInt 1)])]) [SKey "a"; SKey "c"] (JInt 2))
    [SKey "a"; SKey "c"] = JInt 2.
Proof.
  apply getValue_setValue; [reflexivity|].
  rewrite !not_elem_of_cons. repeat split; [discriminate..|apply not_elem_of_nil].
Defined.

(** C3 without the precondition fails: a scalar root is returned unchanged
    by [setValue] and is what [getValue] then gives. *)
Lemma roundtrip_fails_on_scalar_root :
  getValue (setValue (JInt 1) [SKey "a"] (JInt 2)) [SKey "a"] ≠ JInt 2.
Proof. discriminate. Qed.

(** *** C5 *)




(** The scenario of the specification. *)
Example setValue_scenario :
  setValue (JObject [("a", JObject [("b", JInt 1); ("c", JArray [JInt 1; JInt 2; JInt 3])])])
    [SKey "a"; SKey "b"] (JInt 2)
  = JObject [("a", JObject [("b", JInt 2); ("c", JArray [JInt 1; JInt 2; JInt 3])])].
Proof. reflexivity. Qed.

(** ** [deepMerge] *)

Lemma deepMerge_objects baseEntries overrideEntries :
  deepMerge (JObject baseEntries) (JObject overrideEntries)
  = JObject (mergeEntries baseEntries overrideEntries).
Proof. done. Qed.

Lemma deepMerge_not_object base override :
  isObject override = false → deepMerge base override = override.
Proof. by destruct override. Qed.

Lemma deepMerge_onto_undefined override : deepMerge JUndefined override = override.
Proof. by destruct override. Qed.

(** What one key holds after the loop has run over [l], starting from
    [result]: for an own key of [result], and for any key but [__proto__]. *)
Lemma lookupKey_merge_loop (baseEntries l result : Entries) (k : string) :
  NoDup (keys l) →
  k ≠ "__proto__" ∨ is_Some (lookupKey k result) →
  lookupKey k
    (foldl (λ result '(key, value),
              assign key (deepMerge (prop key baseEntries) value) result) result l)
  = match lookupKey k l with
    | Some v => Some (deepMerge (prop k baseEntries) v)
    | None => lookupKey k result
    end.
Proof.
  revert result. induction l as [|[k0 v0] l IH]; intros result Hnd Hk; [done|].
  rewrite keys_cons in Hnd. apply NoDup_cons in Hnd as [Hk0 Hnd]. simpl.
  destruct (decide (k0 = k)) as [->|Hne].
  - apply lookupKey_None in Hk0. rewrite IH, Hk0; [|done|].
    + destruct Hk as [Hk|[old Hk]];
        [by apply lookupKey_assign_new | by eapply lookupKey_assign_own].
    + destruct Hk as [Hk|[old Hk]]; [by left|]. right.
      erewrite lookupKey_assign_own by done. by eexists.
  - rewrite IH by (by rewrite ?lookupKey_assign_ne by done).
    destruct (lookupKey k l); [done|]. by rewrite lookupKey_assign_ne.
Qed.


(** The loop creates no key [__proto__]. *)
Lemma lookupKey_merge_loop_proto (baseEntries l result : Entries) :
  lookupKey "__proto__" result = None →
  lookupKey "__proto__"
    (foldl (λ result '(key, value),
              assign key (deepMerge (prop key baseEntries) value) result) result l)
  = None.
Proof.
  revert result. induction l as [|[k0 v0] l IH]; intros result Hk; [done|]. simpl.
  apply IH. destruct (decide (k0 = "__proto__")) as [->|Hne].
  - by rewrite assign_proto.
  - by rewrite lookupKey_assign_ne.
Qed.

(** *** C4 *)

(** C4 does not hold of the code for the key [__proto__].  The loop of
    [deepMerge] assigns every key of the overlay to [result]; where
    [result] has no own key [__proto__] that assignment is to the accessor
    of [Object.prototype] and creates no key.  Here the overlay holds a
    mapping at [__proto__] and a number at [b]: the merge has [b], and
    lacks [__proto__]; the same with a number at [__proto__].  The other
    branch of [deepMerge], which copies the overlay with a spread when
    [base] is no mapping, keeps the key. *)
Theorem deepMerge_drops_proto :
  let held := JObject [("x", JInt 1)] in
  let overlay := [("__proto__", held); ("b", JInt 2)] in
  lookupKey "__proto__" overlay = Some held ∧
  deepMerge (JObject [("a", JInt 1)]) (JObject overlay)
    = JObject [("a", JInt 1); ("b", JInt 2)] ∧
  deepMerge (JObject []) (JObject [("__proto__", JInt 1)]) = JObject [] ∧
  deepMerge JNull (JObject overlay) = JObject overlay.
Proof. repeat split. Qed.

(** The scenario of the specification. *)
Example deepMerge_scenario :
  deepMerge (JObject [("x", JInt 1); ("y", JObject [("z", JInt 2)])])
    (JObject [("y", JObject [("z", JInt 5); ("w", JInt 9)])])
  = JObject [("x", JInt 1); ("y", JObject [("z", JInt 5); ("w", JInt 9)])].
Proof. reflexivity. Qed.

(** ** [collectPaths] *)

Lemma flatMapIdx_total {A B} (f : A → nat → option (list B)) (g : A → nat → list B)
    (l : list A) (n : nat) :
  Forall (λ x, ∀ i, f x i = Some (g x i)) l →
  flatMapIdx f l n = Some (flatMapi g l n).
Proof.
  intros Hall. revert n. induction Hall as [|x l Hx _ IH]; intros n; [done|].
  simpl. by rewrite Hx, IH.
Qed.

Lemma flatMapi_ext {A B} (f g : A → nat → list B) (l : list A) (n : nat) :
  Forall (λ x, ∀ i, f x i = g x i) l → flatMapi f l n = flatMapi g l n.
Proof.
  intros Hall. revert n. induction Hall as [|x l Hx _ IH]; intros n; [done|].
  simpl. by rewrite Hx, IH.
Qed.

Lemma flatMapi_fmap {A B C} (h : B → C) (f : A → nat → list B) (l : list A) (n : nat) :
  h <$> flatMapi f l n = flatMapi (λ x i, h <$> f x i) l n.
Proof.
  revert n. induction l as [|x l IH]; intros n; [done|].
  simpl. by rewrite fmap_app, IH.
Qed.

Lemma elem_of_flatMapi {A B} (f : A → nat → list B) (l : list A) (n : nat) (y : B) :
  y ∈ flatMapi f l n ↔ ∃ i x, l !! i = Some x ∧ y ∈ f x (n + i).
Proof.
  revert n. induction l as [|x l IH]; intros n; simpl.
  - split; [intros ?%elem_of_nil; done | intros (i & x & ? & _); done].
  - rewrite elem_of_app, IH. split.
    + intros [Hy|(i & x' & Hi & Hy)].
      * exists 0, x. by rewrite Nat.add_0_r.
      * exists (S i), x'. by rewrite Nat.add_succ_r.
    + intros ([|i] & x' & Hi & Hy); simpl in Hi.
      * left. rewrite Nat.add_0_r in Hy. congruence.
      * right. exists i, x'. by rewrite Nat.add_succ_r in Hy.
Qed.

Lemma forallb_Forall {A} (f : A → bool) (l : list A) :
  forallb f l = true ↔ Forall (λ x, f x = true) l.
Proof.
  induction l as [|x l IH]; simpl.
  - split; [by constructor | done].
  - rewrite andb_true_iff, Forall_cons, IH. done.
Qed.

Lemma is_json_array items :
  is_json (JArray items) = true ↔ Forall (λ item, is_json item = true) items.
Proof. apply forallb_Forall. Qed.

Lemma is_json_object entries :
  is_json (JObject entries) = true ↔
  NoDup (keys entries) ∧ Forall (λ e, is_json e.2 = true) entries.
Proof.
  simpl. rewrite andb_true_iff, bool_decide_eq_true, forallb_Forall. done.
Qed.

(** The strings of [collectPaths] are the leaf paths of the specification,
    each joined after the prefix, in the same order. *)
Lemma collectPaths_leafPaths (value : JsonValue) (prefix : list string) :
  is_json value = true →
  collectPaths value prefix
  = Some ((λ p, joinDot (prefix ++ (segKey <$> p))) <$> leafPaths value).
Proof.
  revert prefix.
  induction value as [| | | | |items IH|entries IH] using JsonValue_deep_ind;
    intros prefix Hj; try done.
  1-4: simpl; by rewrite app_nil_r.
  - apply is_json_array in Hj. simpl.
    rewrite (flatMapIdx_total _
               (λ item index, (λ p, joinDot ((prefix ++ [pretty index]) ++ (segKey <$> p)))
                                <$> leafPaths item)).
    + f_equal. rewrite flatMapi_fmap. apply flatMapi_ext, Forall_forall.
      intros item _ i. rewrite <-list_fmap_compose.
      apply list_fmap_ext. intros _ p _. simpl. by rewrite <-app_assoc.
    + rewrite Forall_forall in IH, Hj. apply Forall_forall. intros item Hin i.
      by apply IH, Hj.
  - apply is_json_object in Hj as [_ Hj]. simpl.
    rewrite (flatMapIdx_total _
               (λ '(key, child) _, (λ p, joinDot ((prefix ++ [key]) ++ (segKey <$> p)))
                                     <$> leafPaths child)).
    + f_equal. rewrite flatMapi_fmap. apply flatMapi_ext, Forall_forall.
      intros [key child] _ i. rewrite <-list_fmap_compose.
      apply list_fmap_ext. intros _ p _. simpl. by rewrite <-app_assoc.
    + rewrite Forall_forall in IH, Hj. apply Forall_forall. intros [key child] Hin i.
      by apply (IH _ Hin), (Hj _ Hin).
Qed.

Lemma lookupKey_Some_elem_of key value entries :
  lookupKey key entries = Some value → (key, value) ∈ entries.
Proof.
  induction entries as [|[k v] rest IH]; simpl; [done|].
  case_decide; subst.
  - intros [= ->]. apply list_elem_of_here.
  - intros ?. by apply list_elem_of_further, IH.
Qed.

Lemma elem_of_lookupKey_Some key value entries :
  NoDup (keys entries) → (key, value) ∈ entries → lookupKey key entries = Some value.
Proof.
  induction entries as [|[k v] rest IH]; simpl; intros Hnd Hin.
  - by apply elem_of_nil in Hin.
  - apply NoDup_cons in Hnd as [Hk Hnd].
    apply elem_of_cons in Hin as [[= -> ->]|Hin].
    + by rewrite decide_True.
    + rewrite decide_False; [by apply IH|].
      intros ->. apply Hk. apply list_elem_of_fmap. by exists (key, value).
Qed.

Lemma resolve_getValue root path node :
  resolve root path = Some node → getValue root path = node.
Proof.
  revert root. induction path as [|head rest IH]; intros root.
  - by intros [= ->].
  - rewrite getValue_cons.
    destruct root as [| | | | |items|entries], head as [k|i]; try done; simpl.
    + unfold elem. destruct (items !! i); [|done]. apply IH.
    + unfold prop. destruct (lookupKey k entries); [|done]. apply IH.
Qed.

Lemma resolve_primitive root path node :
  isPrimitive root = true → resolve root path = Some node → path = [] ∧ node = root.
Proof. destruct path, root; try done; by intros _ [= ->]. Qed.

(** The leaf paths of the specification are the valid paths that lead to a
    scalar. *)
Lemma elem_of_leafPaths (value : JsonValue) (path : JsonPath) :
  is_json value = true →
  path ∈ leafPaths value ↔
  ∃ leaf, resolve value path = Some leaf ∧ isPrimitive leaf = true.
Proof.
  revert path.
  induction value as [| | | | |items IH|entries IH] using JsonValue_deep_ind;
    intros path Hj; try done.
  1-4: simpl; rewrite list_elem_of_singleton; split;
    [ intros ->; by eexists
    | intros (leaf & Hr & _); by apply resolve_primitive in Hr as [-> _] ].
  - apply is_json_array in Hj. rewrite Forall_forall in IH, Hj.
    simpl leafPaths. rewrite elem_of_flatMapi. split.
    + intros (i & item & Hi & Hp). apply list_elem_of_fmap in Hp as (q & -> & Hq).
      apply IH in Hq as (leaf & Hr & Hleaf);
        [|by eapply list_elem_of_lookup_2|by eapply Hj, list_elem_of_lookup_2].
      exists leaf. simpl. by rewrite Hi.
    + intros (leaf & Hr & Hleaf). destruct path as [|[k|i] q]; simpl in Hr.
      * by injection Hr as <-.
      * done.
      * destruct (items !! i) as [item|] eqn:Hi; [|done].
        exists i, item. split; [done|]. apply list_elem_of_fmap. exists q. split; [done|].
        apply IH; [by eapply list_elem_of_lookup_2|by eapply Hj, list_elem_of_lookup_2|].
        by exists leaf.
  - apply is_json_object in Hj as [Hnd Hj]. rewrite Forall_forall in IH, Hj.
    simpl leafPaths. rewrite elem_of_flatMapi. split.
    + intros (i & [key child] & Hi & Hp).
      apply list_elem_of_fmap in Hp as (q & -> & Hq).
      apply list_elem_of_lookup_2 in Hi.
      apply (IH _ Hi) in Hq as (leaf & Hr & Hleaf); [|by apply (Hj _ Hi)].
      exists leaf. simpl. by rewrite (elem_of_lookupKey_Some _ _ _ Hnd Hi).
    + intros (leaf & Hr & Hleaf). destruct path as [|[k|i] q]; simpl in Hr.
      * by injection Hr as <-.
      * destruct (lookupKey k entries) as [child|] eqn:Hk; [|done].
        apply lookupKey_Some_elem_of in Hk.
        destruct (proj1 (list_elem_of_lookup _ _) Hk) as [i Hi].
        exists i, (k, child). split; [done|].
        apply list_elem_of_fmap. exists q. split; [done|].
        apply (IH _ Hk); [by apply (Hj _ Hk)|]. by exists leaf.
      * done.
Qed.

Lemma leafPaths_plain value path :
  plainKeys value = true → path ∈ leafPaths value →
  Forall (λ seg, plainKey (segKey seg) = true) path.
Proof.
  revert path.
  induction value as [| | | | |items IH|entries IH] using JsonValue_deep_ind;
    intros path Hplain Hin; try (by apply elem_of_nil in Hin);
    try (apply list_elem_of_singleton in Hin as ->; by constructor).
  - simpl in Hin, Hplain. apply elem_of_flatMapi in Hin as (i & item & Hi & Hin).
    apply list_elem_of_fmap in Hin as (q & -> & Hq).
    rewrite forallb_Forall, Forall_lookup in Hplain. rewrite Forall_lookup in IH.
    constructor; [apply pretty_nat_plain|]. by eapply IH, Hq; [|eapply Hplain].
  - simpl in Hin, Hplain. apply elem_of_flatMapi in Hin as (i & [key child] & Hi & Hin).
    apply list_elem_of_fmap in Hin as (q & -> & Hq).
    rewrite forallb_Forall, Forall_lookup in Hplain. rewrite Forall_lookup in IH.
    destruct (proj1 (andb_true_iff _ _) (Hplain _ _ Hi)) as [Hkey Hchild].
    constructor; [done|]. by eapply (IH _ _ Hi), Hq.
Qed.

Lemma pathKey_plain (q : JsonPath) :
  q ≠ [] → Forall (λ seg, plainKey (segKey seg) = true) q →
  split "."%char (pathKey q) = segKey <$> q ∧ pathKey q ≠ "".
Proof.
  intros Hne Hall. split.
  - apply split_concat; [by destruct q|].
    apply Forall_fmap. eapply Forall_impl; [done|].
    intros seg Hseg. simpl. by apply plainKey_spec in Hseg as [_ ?].
  - destruct Hall as [|seg rest Hseg _]; [done|].
    apply plainKey_spec in Hseg as [Hk _]. unfold pathKey. rewrite fmap_cons.
    destruct rest as [|next rest]; [done|].
    rewrite joinDot_cons by done. by destruct (segKey seg).
Qed.

Lemma dotJoined_joinDot segments : dotJoined segments = joinDot segments.
Proof.
  induction segments as [|first others IH]; [done|].
  destruct others as [|next others]; [done|].
  rewrite joinDot_cons by done. by rewrite <-IH.
Qed.

Lemma pathText_pathKey path : pathText path = pathKey path.
Proof.
  unfold pathText, pathKey. rewrite dotJoined_joinDot. f_equal.
Qed.

(** Two valid paths of one value with the same segment strings are the
    same path: the node tells whether a string is a key or an index. *)
Lemma resolve_segments_inj value p q :
  is_Some (resolve value p) → is_Some (resolve value q) →
  segKey <$> p = segKey <$> q → p = q.
Proof.
  revert value q. induction p as [|s p IH]; intros value [|t q] Hp Hq Heq; try done.
  injection Heq as Hst Hpq.
  destruct value as [| | | | |items|entries], s as [k|i], t as [k'|j];
    try (by destruct Hp); try (by destruct Hq); simpl in *.
  - apply (inj pretty) in Hst as ->. f_equal.
    destruct (items !! j) as [item|]; [by eapply IH|by destruct Hp].
  - subst k'. f_equal.
    destruct (lookupKey k entries) as [child|]; [by eapply IH|by destruct Hp].
Qed.

(** The segments of a valid path are indices and keys of the value. *)
Lemma resolve_plain value path :
  plainKeys value = true → is_Some (resolve value path) →
  Forall (λ seg, plainKey (segKey seg) = true) path.
Proof.
  revert value. induction path as [|head rest IH]; intros value Hplain Hres; [done|].
  destruct value as [| | | | |items|entries], head as [k|i];
    try (by destruct Hres); simpl in *.
  - destruct (items !! i) as [item|] eqn:Hi; [|by destruct Hres].
    constructor; [apply pretty_nat_plain|]. apply (IH item); [|done].
    rewrite forallb_Forall, Forall_lookup in Hplain. by eapply Hplain.
  - destruct (lookupKey k entries) as [child|] eqn:Hk; [|by destruct Hres].
    apply lookupKey_Some_elem_of in Hk.
    rewrite forallb_Forall, Forall_forall in Hplain.
    destruct (proj1 (andb_true_iff _ _) (Hplain _ Hk)) as [Hkey Hchild].
    constructor; [done|]. by apply (IH child).
Qed.

(** For keys that are not empty and have no dot, the text of a valid path
    tells the path. *)
Lemma pathText_inj value p q :
  plainKeys value = true →
  is_Some (resolve value p) → is_Some (resolve value q) →
  pathText p = pathText q → p = q.
Proof.
  intros Hplain Hp Hq. rewrite !pathText_pathKey. intros Heq.
  pose proof (resolve_plain _ _ Hplain Hp) as Hplainp.
  pose proof (resolve_plain _ _ Hplain Hq) as Hplainq.
  destruct (decide (p = [])) as [->|Hpne].
  - destruct (decide (q = [])) as [->|Hqne]; [done|].
    destruct (pathKey_plain q Hqne Hplainq) as [_ Hne]. by rewrite <-Heq in Hne.
  - destruct (pathKey_plain p Hpne Hplainp) as [Hsplitp Hne].
    destruct (decide (q = [])) as [->|Hqne]; [by rewrite Heq in Hne|].
    destruct (pathKey_plain q Hqne Hplainq) as [Hsplitq _].
    apply (resolve_segments_inj value); [done|done|]. congruence.
Qed.

(** *** C6 *)

(** C6.  For a value of the declared type [collectPaths] returns, and what
    it returns are the leaf paths of the specification, each as its
    dot-joined text, in their pre-order.  Those paths are exactly the valid
    paths that lead to a scalar; [getValue] follows each of them to that
    scalar.  Where no key is empty or has a dot, a text stands for one
    valid path only, so that the output tells the paths.  A scalar root
    gives the empty path and an empty array or mapping gives none. *)
Theorem collectPaths_leaves (value : JsonValue) :
  is_json value = true →
  collectPaths value [] = Some (pathText <$> leafPaths value) ∧
  (∀ path, path ∈ leafPaths value ↔
     ∃ leaf, resolve value path = Some leaf ∧ isPrimitive leaf = true) ∧
  (∀ path, path ∈ leafPaths value →
     resolve value path = Some (getValue value path) ∧
     isPrimitive (getValue value path) = true) ∧
  (plainKeys value = true →
   ∀ p q, is_Some (resolve value p) → is_Some (resolve value q) →
          pathText p = pathText q → p = q) ∧
  (isPrimitive value = true → collectPaths value [] = Some [""]) ∧
  collectPaths (JArray []) [] = Some [] ∧
  collectPaths (JObject []) [] = Some [].
Proof.
  intros Hj. split; [|split; [|split; [|split; [|split]]]].
  - rewrite collectPaths_leafPaths by done. f_equal.
    apply list_fmap_ext. intros _ path _. simpl. by rewrite pathText_pathKey.
  - intros path. by apply elem_of_leafPaths.
  - intros path (leaf & Hr & Hleaf)%elem_of_leafPaths; [|done].
    by rewrite (resolve_getValue _ _ _ Hr).
  - intros Hplain p q. by apply pathText_inj.
  - by destruct value.
  - done.
Qed.

Lemma collectPaths_leaves_witness :
  let v := JObject [("p", JObject [("q", JInt 1); ("r", JArray [JInt 2; JInt 3])])] in
  collectPaths v [] = Some ["p.q"; "p.r.0"; "p.r.1"] ∧
  isPrimitive (getValue v [SKey "p"; SKey "r"; SIdx 1]) = true.
Proof.
  intros v. destruct (collectPaths_leaves v) as (Hpaths & _ & Hget & _); [reflexivity|].
  split; [exact Hpaths|]. apply (Hget [SKey "p"; SKey "r"; SIdx 1]).
  do 2 apply list_elem_of_further. apply list_elem_of_here.
Defined.

(** The scenario of the specification. *)
Example collectPaths_scenario :
  collectPaths (JObject [("p", JObject [("q", JInt 1); ("r", JArray [JInt 2; JInt 3])])]) []
  = Some ["p.q"; "p.r.0"; "p.r.1"].
Proof. reflexivity. Qed.

(** ** [computeImportant] *)

Lemma elem_of_addPrefixes_loop (segments : list string) (result : gset string)
    (start count : nat) (s : string) :
  s ∈ foldl (λ result i, {[ joinDot (take i segments) ]} ∪ result) result (seq start count)
  ↔ s ∈ result ∨ ∃ i, start ≤ i < start + count ∧ s = joinDot (take i segments).
Proof.
  revert result start. induction count as [|count IH]; intros result start; simpl.
  - split; [by left | intros [?|(i & ? & _)]; [done|lia]].
  - rewrite IH, elem_of_union, elem_of_singleton. split.
    + intros [[->|?]|(i & ? & ->)].
      * right. exists start. split; [lia|done].
      * by left.
      * right. exists i. split; [lia|done].
    + intros [?|(i & ? & ->)]; [by left; right|].
      destruct (decide (i = start)) as [->|]; [by left; left|].
      right. exists i. split; [lia|done].
Qed.

Lemma prefix_take_iff {A} (pre l : list A) :
  pre ≠ [] ∧ pre `prefix_of` l ↔ ∃ i, 1 ≤ i < 1 + length l ∧ pre = take i l.
Proof.
  split.
  - intros [Hne [suffix ->]]. exists (length pre). rewrite length_app. split.
    + destruct pre; [done|]. simpl. lia.
    + by rewrite take_app_length.
  - intros (i & Hi & ->). split.
    + destruct l, i; simpl in *; try done; lia.
    + apply prefix_take.
Qed.

Lemma elem_of_addPrefixes (segments : list string) (result : gset string) (s : string) :
  s ∈ addPrefixes segments result
  ↔ s ∈ result ∨ ∃ pre, pre ≠ [] ∧ pre `prefix_of` segments ∧ s = joinDot pre.
Proof.
  unfold addPrefixes. rewrite elem_of_addPrefixes_loop. split.
  - intros [?|(i & Hi & ->)]; [by left|]. right. exists (take i segments).
    destruct (proj2 (prefix_take_iff (take i segments) segments)) as [? ?]; [by exists i|].
    done.
  - intros [?|(pre & Hne & Hpre & ->)]; [by left|]. right.
    destruct (proj1 (prefix_take_iff pre segments)) as (i & Hi & ->); [done|].
    by exists i.
Qed.

Lemma elem_of_important_loop (rawPaths : list string) (result : gset string) (s : string) :
  s ∈ foldl (λ result path,
               if decide (path = "") then result
               else addPrefixes (split "."%char path) result) result rawPaths
  ↔ s ∈ result ∨
    ∃ path pre, path ∈ rawPaths ∧ path ≠ "" ∧
      pre ≠ [] ∧ pre `prefix_of` split "."%char path ∧ s = joinDot pre.
Proof.
  revert result. induction rawPaths as [|path0 rawPaths IH]; intros result; simpl.
  - split; [by left | intros [?|(? & ? & ?%elem_of_nil & _)]; done].
  - rewrite IH. case_decide as Hempty.
    + split.
      * intros [?|(path & pre & Hin & ?)]; [by left|].
        right. exists path, pre. split; [by apply list_elem_of_further|done].
      * intros [?|(path & pre & Hin & Hne & ?)]; [by left|].
        right. exists path, pre. apply elem_of_cons in Hin as [->|Hin]; done.
    + rewrite elem_of_addPrefixes. split.
      * intros [[?|(pre & ? & ? & ?)]|(path & pre & Hin & ?)].
        -- by left.
        -- right. exists path0, pre. split; [apply list_elem_of_here|done].
        -- right. exists path, pre. split; [by apply list_elem_of_further|done].
      * intros [?|(path & pre & Hin & Hne & ?)]; [by left; left|].
        apply elem_of_cons in Hin as [->|Hin].
        -- left. right. by exists pre.
        -- right. by exists path, pre.
Qed.

(** ** The configuration handlers *)

Lemma stateOf_withState mode updated states :
  stateOf mode (withState mode updated states) = Some updated.
Proof. by destruct mode. Qed.

Lemma stateOf_withState_ne mode other updated states :
  other ≠ mode → stateOf other (withState mode updated states) = stateOf other states.
Proof. by destruct mode, other. Qed.

Lemma importantOf_withState mode other state updated app error :
  stateOf mode (configStates app) = Some state →
  important updated = important state →
  importantOf other (mkApp (withState mode updated (configStates app)) error)
  = importantOf other app.
Proof.
  intros Hstate Himp. unfold importantOf. simpl.
  destruct (decide (other = mode)) as [->|Hne].
  - rewrite stateOf_withState, Hstate. simpl. by rewrite Himp.
  - by rewrite stateOf_withState_ne.
Qed.

(** *** C9 *)

(** C9, as the code has it.  For a value of the declared type the important
    set is computed.  Its members are, for each leaf path whose dot-joined
    text is not empty, that text and every beginning of it that ends just
    before one of its dots; a leaf path whose text is empty adds nothing.
    Where no key is empty or has a dot, these are the texts of the
    non-empty paths that lead to a leaf or to a container above one.  The
    handlers for an edit, a merge and a reset leave the set of every mode as
    it is. *)
Theorem computeImportant_members (value : JsonValue) :
  (is_json value = true →
   ∃ members,
     computeImportant value = Some members ∧
     (∀ s, s ∈ members ↔
        ∃ path, path ∈ leafPaths value ∧ pathText path ≠ "" ∧
          (s = pathText path ∨ ∃ rest, pathText path = s +:+ "." +:+ rest)) ∧
     (plainKeys value = true →
      ∀ s, s ∈ members ↔
        ∃ leaf q, leaf ∈ leafPaths value ∧ q ≠ [] ∧ q `prefix_of` leaf ∧ s = pathText q)) ∧
  (∀ mode other path x app,
     importantOf other (handleUpdate mode path x app) = importantOf other app) ∧
  (∀ mode other selected loaded app,
     importantOf other (loadConfigFromFile mode selected loaded app) = importantOf other app) ∧
  (∀ mode other app,
     importantOf other (resetToDefaults mode app) = importantOf other app).
Proof.
  split; [|split; [|split]].
  - intros Hj. unfold computeImportant. rewrite collectPaths_leafPaths by done.
    eexists. split; [done|].
    assert (∀ s, s ∈ foldl (λ result path,
                   if decide (path = "") then result
                   else addPrefixes (split "."%char path) result) (∅ : gset string)
                   ((λ p, joinDot ([] ++ (segKey <$> p))) <$> leafPaths value)
            ↔ ∃ path, path ∈ leafPaths value ∧ pathText path ≠ "" ∧
                ∃ pre, pre ≠ [] ∧ pre `prefix_of` split "."%char (pathText path) ∧
                       s = joinDot pre)
      as Hmem.
    { intros s. rewrite elem_of_important_loop. split.
      - intros [?%not_elem_of_empty|(str & pre & Hin & Hne & Hpre)]; [done|].
        apply list_elem_of_fmap in Hin as (path & -> & Hin). simpl in *.
        exists path. rewrite pathText_pathKey. split; [done|]. split; [done|].
        by exists pre.
      - intros (path & Hin & Hne & pre & Hpre). rewrite pathText_pathKey in *. right.
        exists (pathKey path), pre. split; [|done].
        apply list_elem_of_fmap. by exists path. }
    split.
    + intros s. rewrite Hmem. split.
      * intros (path & Hin & Hne & Hpre). exists path. split; [done|]. split; [done|].
        by apply leading_segments.
      * intros (path & Hin & Hne & Hs). exists path. split; [done|]. split; [done|].
        by apply leading_segments.
    + intros Hplain s. rewrite Hmem. split.
      * intros (leaf & Hleaf & Hne & pre & Hprene & Hprefix & ->).
        assert (leaf ≠ []) as Hleafne by (intros ->; done).
        rewrite pathText_pathKey in Hprefix.
        destruct (pathKey_plain leaf Hleafne (leafPaths_plain _ _ Hplain Hleaf))
          as [Hsplit _].
        rewrite Hsplit in Hprefix. destruct Hprefix as [suffix Hsuffix].
        exists leaf, (take (length pre) leaf).
        assert (pre = segKey <$> take (length pre) leaf) as Hq.
        { rewrite fmap_take, Hsuffix. by rewrite take_app_length. }
        split; [done|]. split; [intros Hnil; rewrite Hnil in Hq; done|].
        split; [apply prefix_take|]. rewrite pathText_pathKey. unfold pathKey.
        by rewrite <-Hq.
      * intros (leaf & q & Hleaf & Hq & [suffix ->] & ->).
        assert (q ++ suffix ≠ []) as Hne by by destruct q.
        destruct (pathKey_plain _ Hne (leafPaths_plain _ _ Hplain Hleaf))
          as [Hsplit Hkey].
        exists (q ++ suffix). rewrite !pathText_pathKey. split; [done|]. split; [done|].
        exists (segKey <$> q). split; [by destruct q|]. split; [|done].
        rewrite Hsplit, fmap_app. by eexists.
  - intros mode other path x app. unfold handleUpdate.
    destruct (stateOf mode (configStates app)) as [state|] eqn:Hstate; [|done].
    by apply importantOf_withState with state.
  - intros mode other selected loaded app. unfold loadConfigFromFile.
    destruct selected as [selected|]; [|done]. case_decide; [done|].
    destruct (stateOf mode (configStates app)) as [state|] eqn:Hstate; [|done].
    by apply importantOf_withState with state.
  - intros mode other app. unfold resetToDefaults.
    destruct (stateOf mode (configStates app)) as [state|] eqn:Hstate; [|done].
    destruct (clone (defaults state)); [|done].
    by apply importantOf_withState with state.
Qed.

Lemma computeImportant_members_witness :
  ∃ members,
    computeImportant (JObject [("a", JObject [("b", JInt 1)])]) = Some members ∧
    "a.b" ∈ members ∧ "a" ∈ members.
Proof.
  destruct (proj1 (computeImportant_members (JObject [("a", JObject [("b", JInt 1)])])))
    as (members & Hc & Hm & _); [reflexivity|].
  exists members. split; [exact Hc|]. split.
  - apply Hm. exists [SKey "a"; SKey "b"]. split; [apply list_elem_of_here|].
    split; [discriminate|]. by left.
  - apply Hm. exists [SKey "a"; SKey "b"]. split; [apply list_elem_of_here|].
    split; [discriminate|]. right. by exists "b".
Defined.

(** C9 as the specification words it fails: the only leaf path of a scalar
    root is the empty string, and the set leaves it out. *)
Lemma computeImportant_scalar_root :
  collectPaths (JInt 1) [] = Some [""] ∧
  ∃ members, computeImportant (JInt 1) = Some members ∧ "" ∉ members.
Proof.
  split; [reflexivity|]. exists ∅. split; [reflexivity|]. apply not_elem_of_empty.
Qed.

Example computeImportant_scenario :
  computeImportant (JObject [("p", JObject [("q", JInt 1); ("r", JArray [JInt 2; JInt 3])])])
  = Some (list_to_set ["p"; "p.q"; "p.r"; "p.r.0"; "p.r.1"]).
Proof. reflexivity. Qed.

(** *** C10 *)

(** C10.  [handleUpdate] leaves the state of every other mode as it is.  For
    the mode it is called for, when that mode has a state, the new state has
    [setValue] of the previous [current] as its [current] and every other
    field as before; when it has none, nothing changes. *)
Theorem handleUpdate_frame (mode : RunMode) (path : JsonPath) (value : JsonValue)
    (app : App) :
  (∀ other, other ≠ mode →
     stateOf other (configStates (handleUpdate mode path value app))
     = stateOf other (configStates app)) ∧
  match stateOf mode (configStates app) with
  | None => handleUpdate mode path value app = app
  | Some state =>
      ∃ updated,
        stateOf mode (configStates (handleUpdate mode path value app)) = Some updated ∧
        current updated = setValue (current state) path value ∧
        defaults updated = defaults state ∧
        important updated = important state ∧
        source updated = source state ∧
        lastLoadedPath updated = lastLoadedPath state ∧
        persistedPath updated = persistedPath state
  end.
Proof.
  unfold handleUpdate.
  destruct (stateOf mode (configStates app)) as [state|] eqn:Hstate.
  - split.
    + intros other Hne. simpl. by apply stateOf_withState_ne.
    + eexists. simpl. rewrite stateOf_withState. done.
  - done.
Qed.

Lemma handleUpdate_frame_witness :
  let state v := mkConfigState v v ∅ fallback None None in
  let app := mkApp (mkConfigStates (Some (state (JObject [("a", JInt 1)])))
                      (Some (state (JObject [("b", JInt 2)])))) None in
  stateOf searchDia (configStates (handleUpdate buildSpecLib [SKey "a"] (JInt 3) app))
  = stateOf searchDia (configStates app).
Proof.
  intros state app.
  apply (proj1 (handleUpdate_frame buildSpecLib [SKey "a"] (JInt 3) app)).
  discriminate.
Defined.

(** ** The tree editor *)

Lemma trimEnd_empty s : trimEnd s = "" ↔ isBlank s = true.
Proof.
  induction s as [|c s IH]; simpl; [done|].
  destruct (trimEnd s) eqn:Hs.
  - destruct (Ascii.is_space c); simpl; [by rewrite <-IH|]. done.
  - split; [done|]. intros [_ Hb]%andb_true_iff. by apply IH in Hb.
Qed.

Lemma isBlank_trimStart s : isBlank (trimStart s) = isBlank s.
Proof.
  induction s as [|c s IH]; simpl; [done|].
  destruct (Ascii.is_space c) eqn:Hc; simpl; [done|]. by rewrite Hc.
Qed.

Lemma trim_empty s : trim s = "" ↔ isBlank s = true.
Proof. unfold trim. by rewrite trimEnd_empty, isBlank_trimStart. Qed.

Lemma length_pos_not_empty s : 0 < String.length s ↔ s ≠ "".
Proof. destruct s; simpl; [split; [lia|done] | split; [done|lia]]. Qed.

(** Trimming the lines and keeping the non-empty ones is dropping the blank
    lines and trimming the others. *)
Lemma filter_trimmed (lines : list string) :
  filter (λ line, 0 < String.length line) (trim <$> lines)
  = trim <$> filter (λ line, isBlank line = false) lines.
Proof.
  induction lines as [|line lines IH]; [done|].
  rewrite fmap_cons, !filter_cons, IH.
  destruct (isBlank line) eqn:Hb.
  - rewrite decide_False, decide_False; [done|done|].
    rewrite length_pos_not_empty. intros Hne. by apply Hne, trim_empty.
  - rewrite decide_True, decide_True; [done|done|].
    apply length_pos_not_empty. intros He%trim_empty. congruence.
Qed.

Lemma isNaN_spec n : isNaN n = true ↔ n = S754_nan.
Proof. by destruct n. Qed.

Lemma parseLine_lineValue Number JSON_parse (line : string) :
  lineValue Number JSON_parse line (parseLine Number JSON_parse line).
Proof.
  unfold parseLine. case_decide as Hlit.
  - destruct Hlit as [->| ->]; constructor.
  - assert (line ≠ "true" ∧ line ≠ "false") as [? ?] by (split; intros ->; apply Hlit; auto).
    destruct (isNaN (Number line)) eqn:Hnan; simpl.
    + apply isNaN_spec in Hnan. destruct (JSON_parse line) eqn:Hparse; by constructor.
    + constructor; [done|done|]. intros Heq. by rewrite Heq in Hnan.
Qed.

(** The pieces that [split] makes are the lines of the text. *)
Lemma occurs_split sep s : Forall (λ piece, occurs sep piece = false) (split sep s).
Proof.
  induction s as [|c s IH]; simpl; [by constructor|].
  case_decide; [by constructor|].
  destruct (split sep s) as [|first others] eqn:Hs; [by apply split_not_nil in Hs|].
  apply Forall_cons in IH as [Hfirst Hothers]. constructor; [|done].
  simpl. by rewrite bool_decide_eq_false_2.
Qed.

Lemma concat_split sep s : String.concat (String sep "") (split sep s) = s.
Proof.
  induction s as [|c s IH]; [done|]. simpl. case_decide; subst.
  - destruct (split sep s) as [|first others] eqn:Hs; [by apply split_not_nil in Hs|].
    change (String.concat (String sep "") ("" :: first :: others))
      with (String sep (String.concat (String sep "") (first :: others))).
    by rewrite IH.
  - destruct (split sep s) as [|first others] eqn:Hs; [by apply split_not_nil in Hs|].
    destruct others as [|next others]; [simpl in *; by subst|].
    change (String.concat (String sep "") (String c first :: next :: others))
      with (String c (first +:+ String sep (String.concat (String sep "") (next :: others)))).
    by rewrite <-IH.
Qed.

Lemma linesOf_split text : linesOf text (split "010"%char text).
Proof.
  split; [apply split_not_nil|]. split; [apply occurs_split|]. by rewrite concat_split.
Qed.

(** [trim] takes the white space off the two ends. *)
Lemma trimStart_spec s :
  (∀ c rest, trimStart s = String c rest → Ascii.is_space c = false) ∧
  ∃ before, s = before +:+ trimStart s ∧ isBlank before = true.
Proof.
  induction s as [|c s [Hclean (before & Heq & Hblank)]]; simpl.
  - split; [done|]. by exists "".
  - destruct (Ascii.is_space c) eqn:Hc.
    + split; [done|]. exists (String c before). rewrite append_cons, <-Heq.
      split; [done|]. simpl. by rewrite Hc.
    + split; [by intros c' rest [= <- _]|]. by exists "".
Qed.

Lemma trimEnd_spec s :
  (∀ rest c, trimEnd s = rest +:+ String c "" → Ascii.is_space c = false) ∧
  ∃ after, s = trimEnd s +:+ after ∧ isBlank after = true.
Proof.
  induction s as [|c s [Hclean (after & Heq & Hblank)]]; simpl.
  - split; [by intros []|]. by exists "".
  - destruct (trimEnd s) as [|c' kept] eqn:Hs.
    + change (s = after) in Heq. subst after. destruct (Ascii.is_space c) eqn:Hc.
      * split; [by intros []|]. exists (String c s). split; [done|]. simpl. by rewrite Hc.
      * split; [|by exists s]. intros [|a rest] c0; [by intros [= <-]|].
        rewrite append_cons. intros [= _ Hnil]. by destruct rest.
    + split; [|exists after; split; [by rewrite append_cons, <-Heq|done]].
      intros [|a rest] c0; [done|]. rewrite append_cons. intros [= _ Hkept].
      by apply (Hclean rest).
Qed.

Lemma trimEnd_first s c rest :
  trimEnd s = String c rest → ∃ rest', s = String c rest'.
Proof.
  destruct s as [|c' s]; simpl; [done|].
  destruct (trimEnd s); [destruct (Ascii.is_space c')|]; intros [= <- _]; by eexists.
Qed.

Lemma trimmed_trim line : trimmed line (trim line).
Proof.
  unfold trim.
  destruct (trimStart_spec line) as [Hstart (before & Hline & Hbefore)].
  destruct (trimEnd_spec (trimStart line)) as [Hend (after & Hkept & Hafter)].
  split; [split|].
  - intros c rest [rest' Hfirst]%trimEnd_first. by eapply Hstart.
  - done.
  - exists before, after. split; [|done]. by rewrite <-Hkept.
Qed.

(** *** C7 *)

(** C7.  Committing the text of the textarea emits one callback, at the path
    of the node, with an array.  Its elements are, in order, the values that
    the specification gives the lines of the text that are not blank, each
    trimmed. *)
Theorem commitArrayChanges_lines (Number : string → spec_float)
    (JSON_parse : string → option JsonValue) (path : JsonPath) (text : string) :
  ∃ lines items,
    linesOf text lines ∧
    commitArrayChanges Number JSON_parse path text = [(path, JArray items)] ∧
    Forall2 (λ line item, ∃ t, trimmed line t ∧ lineValue Number JSON_parse t item)
      (filter (λ line, isBlank line = false) lines) items.
Proof.
  exists (split "010"%char text). eexists. split; [apply linesOf_split|].
  split; [done|]. rewrite filter_trimmed.
  apply Forall2_fmap_r, Forall2_fmap_r, Forall_Forall2_diag, Forall_forall.
  intros line _. exists (trim line). split; [apply trimmed_trim|].
  apply parseLine_lineValue.
Qed.

(** The scenarios of the specification, for a [Number] that reads the
    decimal digits as JavaScript does. *)
Example commitArrayChanges_scenario (Number : string → spec_float)
    (JSON_parse : string → option JsonValue) :
  Number "1" = numOfZ 1 → Number "2" = numOfZ 2 → Number "3" = numOfZ 3 →
  let nl := String "010"%char "" in
  commitArrayChanges Number JSON_parse [] ("1" +:+ nl +:+ "2" +:+ nl +:+ "3")
    = [([], JArray [JInt 1; JInt 2; JInt 3])] ∧
  commitArrayChanges Number JSON_parse [] ("true" +:+ nl +:+ "false")
    = [([], JArray [JBool true; JBool false])] ∧
  commitArrayChanges Number JSON_parse [] ("1" +:+ nl +:+ nl +:+ "2")
    = [([], JArray [JInt 1; JInt 2])].
Proof.
  intros H1 H2 H3 nl. unfold commitArrayChanges, parseLine, trim. simpl.
  rewrite H1, H2, H3. done.
Qed.

(** *** C8 *)

(** C8, as the code has it.  A change of the number field emits one
    callback, at the path of the node: with [null] when the text is empty,
    and otherwise with the number that [Number] makes of the text, which is
    [NaN] when the text is not numeric. *)
Theorem handleNumberChange_emits (Number : string → spec_float)
    (path : JsonPath) (text : string) :
  ∃ next,
    handleNumberChange Number path text = [(path, next)] ∧
    (text = "" → next = JNull) ∧
    (text ≠ "" → next = JNumber (Number text)).
Proof.
  unfold handleNumberChange. eexists. split; [done|].
  case_decide; split; done.
Qed.

Lemma handleNumberChange_emits_witness :
  ∃ next,
    handleNumberChange (λ _, numOfZ 7) [SKey "a"] "" = [([SKey "a"], next)] ∧
    next = JNull.
Proof.
  destruct (handleNumberChange_emits (λ _, numOfZ 7) [SKey "a"] "") as (next & He & Hempty & _).
  exists next. split; [exact He|]. apply Hempty. reflexivity.
Defined.

(** C8 as the specification words it fails: an empty entry is emitted, as
    [null].  [Number] is not called on the empty text, so any function
    stands for it here. *)
Lemma handleNumberChange_empty_emits :
  handleNumberChange (λ _, S754_nan) [SKey "a"] "" = [([SKey "a"], JNull)] ∧
  handleNumberChange (λ _, S754_nan) [SKey "a"] "" ≠ [].
Proof. split; [reflexivity | discriminate]. Qed.

(** * Further properties of the code *)

(** ** Writing *)

Lemma store_store index a b items :
  store index b (store index a items) = store index b items.
Proof.
  unfold store at 2. case_decide as Hin.
  - unfold store. rewrite length_insert, !decide_True by done.
    apply list_insert_insert_eq.
  - unfold store.
    rewrite decide_True by (rewrite !length_app, length_replicate; simpl; lia).
    rewrite decide_False by done.
    rewrite app_assoc. rewrite insert_app_r_alt
      by (rewrite length_app, length_replicate; lia).
    rewrite length_app, length_replicate.
    replace (index - (length items + (index - length items))) with 0 by lia.
    simpl. by rewrite <-app_assoc.
Qed.

Lemma assign_assign key a b entries :
  assign key b (assign key a entries) = assign key b entries.
Proof.
  destruct (lookupKey key entries) as [old|] eqn:Hk.
  - destruct (assign_own _ _ _ Hk) as (before & after & -> & Hin & Hassign).
    rewrite (Hassign a), (Hassign b). unfold assign.
    rewrite lookupKey_middle_eq by done. by apply replaceProp_middle.
  - destruct (decide (key = "__proto__")) as [->|Hproto];
      [by rewrite !(assign_proto _ entries)|].
    destruct (assign_new _ _ Hk Hproto) as (before & after & -> & Hassign).
    rewrite (Hassign a), (Hassign b). apply lookupKey_None in Hk.
    rewrite keys_app, not_elem_of_app in Hk. destruct Hk as [Hbefore _]. unfold assign.
    rewrite lookupKey_middle_eq by done. by apply replaceProp_middle.
Qed.

(** X1.  Of two writes at the same path the second wins: the first leaves
    no trace, whatever the root and the path are. *)
Theorem setValue_overwrite (root : JsonValue) (path : JsonPath) (x y : JsonValue) :
  setValue (setValue root path x) path y = setValue root path y.
Proof.
  revert root. induction path as [|head rest IH]; intros root.
  - by rewrite !setValue_nil.
  - destruct root as [| | | | |items|entries]; try done.
    + destruct head as [k|i]; [done|]. simpl setValue.
      by rewrite elem_store_eq, IH, store_store.
    + rewrite !setValue_object.
      destruct (decide (lookupKey (segKey head) entries = None ∧ segKey head = "__proto__"))
        as [[Hk Hproto]|Hown].
      * rewrite Hproto in *. by rewrite !(assign_proto _ entries).
      * assert (prop (segKey head)
                  (assign (segKey head) (setValue (prop (segKey head) entries) rest x) entries)
                = setValue (prop (segKey head) entries) rest x) as ->.
        { destruct (lookupKey (segKey head) entries) as [old|] eqn:Hk.
          - by eapply prop_assign_own.
          - apply prop_assign_new. intros Hproto. by apply Hown. }
        by rewrite IH, assign_assign.
Qed.

Lemma store_same index items item :
  items !! index = Some item → store index item items = items.
Proof.
  intros Hi. unfold store. rewrite decide_True by by eapply lookup_lt_Some.
  by apply list_insert_id.
Qed.

Lemma assign_same key entries child :
  lookupKey key entries = Some child → assign key child entries = entries.
Proof.
  intros Hk. destruct (assign_own _ _ _ Hk) as (before & after & -> & _ & Hassign).
  apply Hassign.
Qed.

(** A write that leaves the node at a valid address as it is leaves the
    whole tree as it is. *)
Lemma setValue_unchanged_below root pre node q value :
  resolve root pre = Some node →
  setValue node q value = node →
  setValue root (pre ++ q) value = root.
Proof.
  revert root. induction pre as [|head pre IH]; intros root Hres Hnode.
  - simpl in Hres. by injection Hres as ->.
  - destruct root as [| | | | |items|entries], head as [k|i]; try done; simpl in Hres.
    + destruct (items !! i) as [item|] eqn:Hi; [|done].
      simpl. unfold elem. rewrite Hi. simpl.
      rewrite (IH item) by done. by rewrite store_same.
    + destruct (lookupKey k entries) as [child|] eqn:Hk; [|done].
      simpl app. rewrite setValue_object. simpl. unfold prop. rewrite Hk. simpl.
      rewrite (IH child) by done. by rewrite assign_same.
Qed.

(** X2.  Writing back what a valid path leads to changes nothing. *)
Theorem setValue_same (root : JsonValue) (path : JsonPath) (node : JsonValue) :
  resolve root path = Some node →
  setValue root path node = root.
Proof.
  intros Hres. rewrite <-(app_nil_r path).
  apply setValue_unchanged_below with node; [done|]. apply setValue_nil.
Qed.

Lemma setValue_same_witness :
  setValue (JObject [("a", JArray [JInt 1; JInt 2])]) [SKey "a"; SIdx 1] (JInt 2)
  = JObject [("a", JArray [JInt 1; JInt 2])].
Proof. apply setValue_same. reflexivity. Defined.

(** X3.  Where a valid path ends at a scalar or at [undefined], or at an
    array while the next segment is a key, a write further down is given up
    and the root is returned as it is. *)
Theorem setValue_refused (root : JsonValue) (pre post : JsonPath) (node : JsonValue)
    (seg : Segment) (value : JsonValue) :
  resolve root pre = Some node →
  refused node seg = true →
  setValue root (pre ++ seg :: post) value = root.
Proof.
  intros Hres Href. apply setValue_unchanged_below with node; [done|].
  by destruct node, seg.
Qed.

Lemma setValue_refused_witness :
  setValue (JObject [("a", JInt 1)]) [SKey "a"; SKey "b"] (JInt 2)
  = JObject [("a", JInt 1)].
Proof.
  apply (setValue_refused (JObject [("a", JInt 1)]) [SKey "a"] [] (JInt 1) (SKey "b"));
    reflexivity.
Defined.

Lemma keys_middle key value (before after : Entries) :
  keys (before ++ (key, value) :: after) = keys before ++ key :: keys after.
Proof. by rewrite keys_app, keys_cons. Qed.

Lemma keys_assign_own key old value entries :
  lookupKey key entries = Some old → keys (assign key value entries) = keys entries.
Proof.
  intros Hk. destruct (assign_own _ _ _ Hk) as (before & after & -> & _ & Hassign).
  by rewrite Hassign, !keys_middle.
Qed.

Lemma keys_assign_absent key value entries :
  lookupKey key entries = None → key ≠ "__proto__" → arrayIndex key = None →
  keys (assign key value entries) = keys entries ++ [key].
Proof. intros Hk Hproto Hindex. by rewrite assign_absent, keys_app by done. Qed.

Lemma NoDup_keys_assign key value entries :
  NoDup (keys entries) → NoDup (keys (assign key value entries)).
Proof.
  intros Hnd. destruct (lookupKey key entries) as [old|] eqn:Hk.
  - by erewrite keys_assign_own.
  - destruct (decide (key = "__proto__")) as [->|Hproto]; [by rewrite assign_proto|].
    destruct (assign_new _ _ Hk Hproto) as (before & after & -> & Hassign).
    rewrite Hassign, keys_middle, <-Permutation_middle. apply NoDup_cons.
    apply lookupKey_None in Hk. by rewrite <-keys_app.
Qed.

Lemma Forall_assign (P : string * JsonValue → Prop) key value entries :
  Forall P entries → P (key, value) → Forall P (assign key value entries).
Proof.
  intros Hall Hnew. destruct (lookupKey key entries) as [old|] eqn:Hk.
  - destruct (assign_own _ _ _ Hk) as (before & after & -> & _ & Hassign).
    rewrite Hassign. apply Forall_app in Hall as [Hbefore [_ Hafter]%Forall_cons].
    apply Forall_app. split; [done|]. by constructor.
  - destruct (decide (key = "__proto__")) as [->|Hproto]; [by rewrite assign_proto|].
    destruct (assign_new _ _ Hk Hproto) as (before & after & -> & Hassign).
    rewrite Hassign. apply Forall_app in Hall as [Hbefore Hafter].
    apply Forall_app. split; [done|]. by constructor.
Qed.

Lemma is_json_assign key value entries :
  is_json (JObject entries) = true → is_json value = true →
  is_json (JObject (assign key value entries)) = true.
Proof.
  rewrite !is_json_object. intros [Hnd Hall] Hv. split.
  - by apply NoDup_keys_assign.
  - by apply Forall_assign.
Qed.

Lemma is_json_store index value items :
  is_json (JArray items) = true → is_json value = true → index ≤ length items →
  is_json (JArray (store index value items)) = true.
Proof.
  rewrite !is_json_array. intros Hall Hv Hle. unfold store. case_decide.
  - by apply Forall_insert.
  - replace (index - length items) with 0 by lia. simpl.
    apply Forall_app. split; [done|]. by constructor.
Qed.

Lemma is_json_setValue (root : JsonValue) (path : JsonPath) (value : JsonValue) :
  is_json root = true → is_json value = true → fits root path = true →
  is_json (setValue root path value) = true.
Proof.
  revert root. induction path as [|head rest IH]; intros root Hroot Hvalue Hfits.
  - by rewrite setValue_nil.
  - destruct root as [| | | | |items|entries], head as [k|i]; try done.
    + simpl setValue. destruct rest as [|seg rest].
      * rewrite setValue_nil. simpl in Hfits. apply bool_decide_eq_true in Hfits.
        by apply is_json_store.
      * simpl in Hfits. destruct (items !! i) as [item|] eqn:Hi; [|done].
        apply is_json_store; [done| |by eapply Nat.lt_le_incl, lookup_lt_Some].
        unfold elem. rewrite Hi. simpl. apply IH; [|done|done].
        apply is_json_array in Hroot. rewrite Forall_forall in Hroot.
        by eapply Hroot, list_elem_of_lookup_2.
    + rewrite setValue_object. apply is_json_assign; [done|].
      destruct rest as [|seg rest]; [by rewrite setValue_nil|].
      simpl in Hfits. simpl segKey.
      destruct (lookupKey k entries) as [child|] eqn:Hk; [|done].
      unfold prop. rewrite Hk. simpl. apply IH; [|done|done].
      apply is_json_object in Hroot as [_ Hroot]. rewrite Forall_forall in Hroot.
      by apply (Hroot (k, child)), lookupKey_Some_elem_of.
Qed.

(** X4.  A write keeps the configuration a value of the declared type when
    the written value is one and the write fits the tree: the containers on
    the way exist, and the target is an existing slot, a key of a mapping or
    the index just past the end of an array.  A write past that index does
    not: it leaves a hole. *)
Theorem setValue_keeps_json (root : JsonValue) (path : JsonPath) (value : JsonValue) :
  is_json root = true → is_json value = true →
  (fits root path = true → is_json (setValue root path value) = true) ∧
  (∀ items i, root = JArray items → path = [SIdx i] → length items < i →
     is_json (setValue root path value) = false).
Proof.
  intros Hroot Hvalue. split; [by apply is_json_setValue|].
  intros items i -> -> Hlt. simpl. unfold store. rewrite decide_False by lia.
  rewrite forallb_app. destruct (i - length items) as [|n] eqn:Hn; [lia|].
  simpl. by rewrite andb_false_r.
Qed.

Lemma setValue_keeps_json_witness :
  is_json (setValue (JObject [("a", JArray [JInt 1])]) [SKey "a"; SIdx 1] (JInt 2)) = true.
Proof.
  apply (setValue_keeps_json (JObject [("a", JArray [JInt 1])]) [SKey "a"; SIdx 1] (JInt 2));
    reflexivity.
Defined.

(** ** Reading *)



(** ** Enumerating *)

Lemma flatMapIdx_is_Some {A B} (f : A → nat → option (list B)) (l : list A) (n : nat) :
  is_Some (flatMapIdx f l n) ↔ ∀ i x, l !! i = Some x → is_Some (f x (n + i)).
Proof.
  revert n. induction l as [|x l IH]; intros n; simpl.
  - split; [intros _ i y Hi; done | by eexists].
  - destruct (f x n) as [here|] eqn:Hx.
    + destruct (flatMapIdx f l (S n)) as [there|] eqn:Hl.
      * split; [|by eexists]. intros _ [|i] y Hi; simpl in Hi.
        -- injection Hi as <-. rewrite Nat.add_0_r, Hx. by eexists.
        -- replace (n + S i) with (S n + i) by lia.
           apply (proj1 (IH (S n))); [by eexists|done].
      * split; [intros [? ?]; done|]. intros Hall.
        assert (is_Some (flatMapIdx f l (S n))) as [? ?]; [|congruence].
        apply IH. intros i y Hi. replace (S n + i) with (n + S i) by lia.
        by apply (Hall (S i)).
    + split; [intros [? ?]; done|]. intros Hall.
      specialize (Hall 0 x eq_refl). rewrite Nat.add_0_r, Hx in Hall.
      by destruct Hall.
Qed.

Lemma collectPaths_is_Some (value : JsonValue) (prefix : list string) :
  is_Some (collectPaths value prefix) ↔ defined value = true.
Proof.
  revert prefix.
  induction value as [| | | | |items IH|entries IH] using JsonValue_deep_ind;
    intros prefix; simpl.
  1: split; [intros [? ?]; done | done].
  1-4: split; [done | by eexists].
  - rewrite flatMapIdx_is_Some, forallb_Forall, Forall_lookup.
    rewrite Forall_lookup in IH. split.
    + intros Hall i item Hi. by eapply IH, Hall.
    + intros Hall i item Hi. by eapply IH, Hall.
  - rewrite flatMapIdx_is_Some, forallb_Forall, Forall_lookup.
    rewrite Forall_lookup in IH. split.
    + intros Hall i [key child] Hi. eapply (IH _ _ Hi). by apply (Hall i (key, child)).
    + intros Hall i [key child] Hi. eapply (IH _ _ Hi). by apply (Hall i (key, child)).
Qed.

Lemma collectPaths_None (value : JsonValue) (prefix : list string) :
  collectPaths value prefix = None ↔ defined value = false.
Proof.
  pose proof (collectPaths_is_Some value prefix) as Hsome.
  destruct (collectPaths value prefix), (defined value); split; try done.
  - intros _. assert (false = true) by (apply Hsome; by eexists). done.
  - intros _. by destruct (proj2 Hsome eq_refl).
Qed.

(** X6.  On a value whose arrays have no [undefined] element,
    [collectPaths] throws exactly when the value holds [undefined]
    somewhere (as the root or under a key), whatever the prefix is; on any
    other such value it returns. *)
Theorem collectPaths_throws (value : JsonValue) (prefix : list string) :
  dense value = true →
  (collectPaths value prefix = None ↔ defined value = false) ∧
  (is_Some (collectPaths value prefix) ↔ defined value = true).
Proof. intros _. split; [apply collectPaths_None | apply collectPaths_is_Some]. Qed.

Lemma collectPaths_throws_witness :
  collectPaths (JObject [("a", JUndefined)]) [] = None.
Proof.
  apply (proj1 (collectPaths_throws (JObject [("a", JUndefined)]) [] eq_refl)).
  reflexivity.
Defined.

(** ** Locality of a write *)

Lemma resolve_setValue_below (root : JsonValue) (pre q : JsonPath) (node value : JsonValue) :
  resolve root pre = Some node →
  resolve (setValue root (pre ++ q) value) pre = Some (setValue node q value).
Proof.
  revert root. induction pre as [|head pre IH]; intros root Hres.
  - simpl in Hres. by injection Hres as ->.
  - destruct root as [| | | | |items|entries], head as [k|i]; try done; simpl in Hres.
    + destruct (items !! i) as [item|] eqn:Hi; [|done].
      simpl. unfold elem, store. rewrite Hi. simpl.
      rewrite decide_True by by eapply lookup_lt_Some.
      rewrite list_lookup_insert_eq by by eapply lookup_lt_Some. by apply IH.
    + destruct (lookupKey k entries) as [child|] eqn:Hk; [|done].
      simpl app. rewrite setValue_object. simpl. unfold prop. rewrite Hk. simpl.
      erewrite lookupKey_assign_own by done. by apply IH.
Qed.

(** X7.  After a write below a valid address, the address is still valid
    and leads to the write done on the node that was there; a write at a
    valid address itself is found there. *)
Theorem setValue_local (root : JsonValue) (pre q : JsonPath) (node value : JsonValue) :
  resolve root pre = Some node →
  resolve (setValue root (pre ++ q) value) pre = Some (setValue node q value) ∧
  resolve (setValue root pre value) pre = Some value.
Proof.
  intros Hres. split; [by apply resolve_setValue_below|].
  rewrite <-(app_nil_r pre) at 1.
  by rewrite (resolve_setValue_below root pre [] node), setValue_nil.
Qed.

Lemma setValue_local_witness :
  resolve (setValue (JObject [("a", JObject [("b", JInt 1)])]) [SKey "a"; SKey "c"] (JInt 2))
    [SKey "a"]
  = Some (setValue (JObject [("b", JInt 1)]) [SKey "c"] (JInt 2)).
Proof.
  apply (setValue_local (JObject [("a", JObject [("b", JInt 1)])]) [SKey "a"] [SKey "c"]).
  reflexivity.
Defined.

(** ** Deleting *)

Lemma deleteKey_array_below items i seg rest :
  deleteKey (JArray items) (SIdx i :: seg :: rest)
  = JArray (store i (deleteKey (elem i items) (seg :: rest)) items).
Proof. done. Qed.

Lemma deleteKey_object_below entries head seg rest :
  deleteKey (JObject entries) (head :: seg :: rest)
  = JObject (assign (segKey head) (deleteKey (prop (segKey head) entries) (seg :: rest))
               entries).
Proof. done. Qed.

Lemma app_cons_not_nil {A} (pre q : list A) :
  q ≠ [] → ∃ x l, pre ++ q = x :: l.
Proof. intros Hq. destruct pre, q; try done; by eexists _, _. Qed.

(** After a deletion below a valid address, the address is still valid and
    leads to the deletion done on the node that was there. *)
Lemma deleteKey_local root pre q node :
  q ≠ [] →
  resolve root pre = Some node →
  resolve (deleteKey root (pre ++ q)) pre = Some (deleteKey node q).
Proof.
  intros Hq. revert root. induction pre as [|head pre IH]; intros root Hres.
  - simpl in Hres. by injection Hres as ->.
  - destruct (app_cons_not_nil pre q Hq) as (seg & rest & Heq).
    destruct root as [| | | | |items|entries], head as [k|i]; try done; simpl in Hres.
    + destruct (items !! i) as [item|] eqn:Hi; [|done].
      simpl app. rewrite Heq, deleteKey_array_below, <-Heq.
      simpl. unfold elem, store. rewrite Hi. simpl.
      rewrite decide_True by by eapply lookup_lt_Some.
      rewrite list_lookup_insert_eq by by eapply lookup_lt_Some. by apply IH.
    + destruct (lookupKey k entries) as [child|] eqn:Hk; [|done].
      simpl app. rewrite Heq, deleteKey_object_below, <-Heq.
      simpl. unfold prop. rewrite Hk. simpl.
      erewrite lookupKey_assign_own by done. by apply IH.
Qed.

(** A deletion that leaves the node at a valid address as it is leaves the
    whole tree as it is. *)
Lemma deleteKey_unchanged_below root pre q node :
  q ≠ [] →
  resolve root pre = Some node →
  deleteKey node q = node →
  deleteKey root (pre ++ q) = root.
Proof.
  intros Hq. revert root. induction pre as [|head pre IH]; intros root Hres Hnode.
  - simpl in Hres. by injection Hres as ->.
  - destruct (app_cons_not_nil pre q Hq) as (seg & rest & Heq).
    destruct root as [| | | | |items|entries], head as [k|i]; try done; simpl in Hres.
    + destruct (items !! i) as [item|] eqn:Hi; [|done].
      simpl app. rewrite Heq, deleteKey_array_below, <-Heq.
      unfold elem. rewrite Hi. simpl. rewrite (IH item) by done. by rewrite store_same.
    + destruct (lookupKey k entries) as [child|] eqn:Hk; [|done].
      simpl app. rewrite Heq, deleteKey_object_below, <-Heq.
      simpl. unfold prop. rewrite Hk. simpl. rewrite (IH child) by done.
      by rewrite assign_same.
Qed.

Lemma lookupKey_deleteProp_ne key key' entries :
  key' ≠ key → lookupKey key' (deleteProp key entries) = lookupKey key' entries.
Proof.
  intros Hne. induction entries as [|[k v] rest IH]; simpl; [done|].
  destruct (decide (k = key)) as [->|]; simpl.
  - by rewrite decide_False.
  - by rewrite IH.
Qed.

Lemma filter_all {A} (P : A → Prop) `{!∀ x, Decision (P x)} (l : list A) :
  Forall P l → filter P l = l.
Proof.
  induction 1 as [|x l Hx _ IH]; [done|]. by rewrite filter_cons_True, IH.
Qed.

Lemma keys_deleteProp key entries :
  NoDup (keys entries) →
  keys (deleteProp key entries) = filter (λ k, k ≠ key) (keys entries).
Proof.
  induction entries as [|[k v] rest IH]; [done|].
  change (keys ((k, v) :: rest)) with (k :: keys rest).
  intros [Hk Hnd]%NoDup_cons. simpl deleteProp. rewrite filter_cons.
  destruct (decide (k = key)) as [->|Hne].
  - rewrite decide_False by (intros ?; done).
    symmetry. apply filter_all, Forall_forall. intros k' Hin ->. done.
  - rewrite decide_True by done.
    change (keys ((k, v) :: deleteProp key rest)) with (k :: keys (deleteProp key rest)).
    by rewrite IH.
Qed.

Lemma deleteProp_absent key entries :
  key ∉ keys entries → deleteProp key entries = entries.
Proof.
  induction entries as [|[k v] rest IH]; [done|].
  change (keys ((k, v) :: rest)) with (k :: keys rest).
  rewrite not_elem_of_cons. intros [Hne Hin]. simpl.
  rewrite decide_False by congruence. by rewrite IH.
Qed.

(** X8.  Deleting a key of a mapping at a valid address leaves there the
    mapping without that key: the other keys keep their values and their
    order.  The deleted path then reads as [undefined], unless the key is a
    name inherited from [Object.prototype]. *)
Theorem deleteKey_mapping (root : JsonValue) (pre : JsonPath) (entries : Entries)
    (k : string) :
  resolve root pre = Some (JObject entries) →
  NoDup (keys entries) →
  ∃ left,
    resolve (deleteKey root (pre ++ [SKey k])) pre = Some (JObject left) ∧
    keys left = filter (λ k', k' ≠ k) (keys entries) ∧
    (∀ k', k' ≠ k → lookupKey k' left = lookupKey k' entries) ∧
    (inherited k = false →
     getValue (deleteKey root (pre ++ [SKey k])) (pre ++ [SKey k]) = JUndefined).
Proof.
  intros Hres Hnd. exists (deleteProp k entries).
  assert (resolve (deleteKey root (pre ++ [SKey k])) pre
          = Some (JObject (deleteProp k entries))) as Hleft
    by by rewrite (deleteKey_local root pre [SKey k] (JObject entries)).
  split; [done|]. split; [by apply keys_deleteProp|].
  split; [intros k' Hne; by apply lookupKey_deleteProp_ne|]. intros _.
  rewrite getValue_app, (resolve_getValue _ _ _ Hleft). simpl. unfold prop.
  rewrite (proj2 (lookupKey_None _ _)); [done|].
  rewrite keys_deleteProp by done. rewrite list_elem_of_filter. by intros [? _].
Qed.

Lemma deleteKey_mapping_witness :
  ∃ left,
    resolve (deleteKey (JObject [("a", JInt 1); ("b", JInt 2)]) ([] ++ [SKey "a"])) []
      = Some (JObject left) ∧
    keys left = filter (λ k', k' ≠ "a") (keys [("a", JInt 1); ("b", JInt 2)]) ∧
    getValue (deleteKey (JObject [("a", JInt 1); ("b", JInt 2)]) ([] ++ [SKey "a"]))
      ([] ++ [SKey "a"]) = JUndefined.
Proof.
  destruct (deleteKey_mapping (JObject [("a", JInt 1); ("b", JInt 2)]) []
              [("a", JInt 1); ("b", JInt 2)] "a") as (left & Hl & Hk & _ & Hget).
  - reflexivity.
  - apply NoDup_cons. split; [|apply NoDup_singleton].
    intros [=]%list_elem_of_singleton.
  - exists left. split; [exact Hl|]. split; [exact Hk|]. apply Hget. reflexivity.
Defined.

Lemma elem_splice1 index j items :
  elem j (splice1 index items)
  = if decide (j < index) then elem j items else elem (S j) items.
Proof.
  unfold elem, splice1. destruct (decide (index ≤ length items)) as [Hle|Hgt].
  - case_decide.
    + rewrite lookup_app_l by (rewrite length_take; lia). by rewrite lookup_take_lt.
    + rewrite lookup_app_r by (rewrite length_take; lia).
      rewrite length_take, lookup_drop. f_equal. f_equal. lia.
  - rewrite take_ge, drop_ge, app_nil_r by lia. case_decide; [done|].
    by rewrite !lookup_ge_None_2 by lia.
Qed.

(** X9.  Deleting an index of an array at a valid address leaves there the
    array without that element: the elements before it stay, the elements
    after it move down by one, and an index past the end removes nothing. *)
Theorem deleteKey_array (root : JsonValue) (pre : JsonPath) (items : list JsonValue)
    (i : nat) :
  resolve root pre = Some (JArray items) →
  ∃ left,
    resolve (deleteKey root (pre ++ [SIdx i])) pre = Some (JArray left) ∧
    (∀ j, elem j left = if decide (j < i) then elem j items else elem (S j) items) ∧
    length left = (if decide (i < length items) then length items - 1 else length items) ∧
    (length items ≤ i → deleteKey root (pre ++ [SIdx i]) = root).
Proof.
  intros Hres. exists (splice1 i items).
  split; [by rewrite (deleteKey_local root pre [SIdx i] (JArray items))|].
  split; [intros j; apply elem_splice1|]. split.
  - unfold splice1. rewrite length_app, length_take, length_drop. case_decide; lia.
  - intros Hge. apply deleteKey_unchanged_below with (JArray items); [done|done|].
    simpl. unfold splice1. by rewrite take_ge, drop_ge, app_nil_r by lia.
Qed.

Lemma deleteKey_array_witness :
  ∃ left,
    resolve (deleteKey (JObject [("a", JArray [JInt 1; JInt 2; JInt 3])])
               ([SKey "a"] ++ [SIdx 0])) [SKey "a"] = Some (JArray left) ∧
    elem 0 left = JInt 2.
Proof.
  destruct (deleteKey_array (JObject [("a", JArray [JInt 1; JInt 2; JInt 3])]) [SKey "a"]
              [JInt 1; JInt 2; JInt 3] 0) as (left & Hl & He & _); [reflexivity|].
  exists left. split; [exact Hl|]. by rewrite He.
Defined.

Lemma deleteProp_assign_fresh key value entries :
  key ∉ keys entries → deleteProp key (assign key value entries) = entries.
Proof.
  intros Hin. pose proof (proj2 (lookupKey_None _ _) Hin) as Hk.
  destruct (decide (key = "__proto__")) as [->|Hproto].
  - rewrite assign_proto by done. by apply deleteProp_absent.
  - destruct (assign_new _ _ Hk Hproto) as (before & after & -> & Hassign).
    rewrite Hassign. apply deleteProp_middle.
    rewrite keys_app, not_elem_of_app in Hin. by destruct Hin.
Qed.

(** X10.  Creating a key in a mapping at a valid address and deleting it
    again gives the root back. *)
Theorem deleteKey_setValue_fresh (root : JsonValue) (pre : JsonPath) (entries : Entries)
    (k : string) (value : JsonValue) :
  resolve root pre = Some (JObject entries) →
  k ∉ keys entries →
  deleteKey (setValue root (pre ++ [SKey k]) value) (pre ++ [SKey k]) = root.
Proof.
  intros Hres Hk. revert root Hres. induction pre as [|head pre IH]; intros root Hres.
  - simpl in Hres. injection Hres as ->. simpl.
    by rewrite deleteProp_assign_fresh.
  - destruct (app_cons_not_nil pre [SKey k] ltac:(done)) as (seg & rest & Heq).
    destruct root as [| | | | |items|entries'], head as [k'|i]; try done; simpl in Hres.
    + destruct (items !! i) as [item|] eqn:Hi; [|done].
      simpl app. simpl setValue. rewrite Heq, deleteKey_array_below, <-Heq.
      rewrite elem_store_eq. unfold elem at 1. rewrite Hi. simpl.
      by rewrite (IH item), store_store, store_same.
    + destruct (lookupKey k' entries') as [child|] eqn:Hk'; [|done].
      simpl app. rewrite setValue_object, Heq, deleteKey_object_below, <-Heq.
      simpl segKey. erewrite prop_assign_own by done. unfold prop at 1. rewrite Hk'. simpl.
      by rewrite (IH child), assign_assign, assign_same.
Qed.

Lemma deleteKey_setValue_fresh_witness :
  deleteKey (setValue (JObject [("a", JObject [])]) ([SKey "a"] ++ [SKey "b"]) (JInt 1))
    ([SKey "a"] ++ [SKey "b"])
  = JObject [("a", JObject [])].
Proof.
  apply (deleteKey_setValue_fresh (JObject [("a", JObject [])]) [SKey "a"] [] "b").
  - reflexivity.
  - apply not_elem_of_nil.
Defined.

(** X11.  Deleting what is not there changes nothing: at a valid address, a
    final segment that names no slot of the node (a key the mapping lacks,
    an index past the end of the array, a key at an array, anything at a
    scalar) leaves the root as it is. *)
Theorem deleteKey_nothing (root : JsonValue) (pre : JsonPath) (node : JsonValue)
    (seg : Segment) :
  resolve root pre = Some node →
  nothingAt node seg = true →
  deleteKey root (pre ++ [seg]) = root.
Proof.
  intros Hres Hnothing. apply deleteKey_unchanged_below with node; [done|done|].
  destruct node as [| | | | |items|entries]; try done.
  - destruct seg as [k|i]; [done|]. simpl in *. apply bool_decide_eq_true in Hnothing.
    unfold splice1. by rewrite take_ge, drop_ge, app_nil_r by lia.
  - simpl in *. apply bool_decide_eq_true in Hnothing. by rewrite deleteProp_absent.
Qed.

Lemma deleteKey_nothing_witness :
  deleteKey (JObject [("a", JInt 1)]) ([] ++ [SKey "b"]) = JObject [("a", JInt 1)].
Proof.
  apply (deleteKey_nothing (JObject [("a", JInt 1)]) [] (JObject [("a", JInt 1)]) (SKey "b"));
    reflexivity.
Defined.

(** X12.  Below a key that a mapping lacks, and that is no name inherited
    from [Object.prototype], neither a write nor a deletion leaves the
    mapping as it is: both create the key, bound to [undefined], and leave
    the other keys as they are; the key comes after the entries the mapping
    has, unless it is an array index.  [collectPaths], which returns on the
    mapping, throws on the result. *)
Theorem below_absent_key (entries : Entries) (k : string) (seg : Segment)
    (rest : JsonPath) (value : JsonValue) (prefix : list string) :
  k ∉ keys entries →
  inherited k = false →
  defined (JObject entries) = true →
  ∃ result,
    setValue (JObject entries) (SKey k :: seg :: rest) value = JObject result ∧
    deleteKey (JObject entries) (SKey k :: seg :: rest) = JObject result ∧
    lookupKey k result = Some JUndefined ∧
    (∀ k', k' ≠ k → lookupKey k' result = lookupKey k' entries) ∧
    (arrayIndex k = None → result = entries ++ [(k, JUndefined)]) ∧
    is_Some (collectPaths (JObject entries) prefix) ∧
    collectPaths (JObject result) prefix = None.
Proof.
  intros Hk%lookupKey_None Hproto%inherited_proto Hdef.
  assert (prop k entries = JUndefined) as Hprop by (unfold prop; by rewrite Hk).
  exists (assign k JUndefined entries). split; [|split; [|split; [|split; [|split; [|split]]]]].
  - rewrite setValue_object. simpl segKey. by rewrite Hprop, setValue_undefined.
  - rewrite deleteKey_object_below. simpl segKey. by rewrite Hprop.
  - by apply lookupKey_assign_new.
  - intros k' Hne. apply lookupKey_assign_ne. congruence.
  - intros Hindex. by apply assign_absent.
  - by apply collectPaths_is_Some.
  - apply collectPaths_None. apply not_true_is_false. simpl.
    rewrite forallb_Forall, Forall_forall. intros Hall.
    pose proof (lookupKey_assign_new k JUndefined entries Hproto) as Hin.
    apply lookupKey_Some_elem_of in Hin. by apply Hall in Hin.
Qed.

Lemma below_absent_key_witness :
  setValue (JObject []) [SKey "a"; SKey "b"] (JInt 1) = JObject ([] ++ [("a", JUndefined)]) ∧
  deleteKey (JObject []) [SKey "a"; SKey "b"] = JObject ([] ++ [("a", JUndefined)]).
Proof.
  destruct (below_absent_key [] "a" (SKey "b") [] (JInt 1) [])
    as (result & Hs & Hd & _ & _ & Hlast & _).
  - apply not_elem_of_nil.
  - reflexivity.
  - reflexivity.
  - rewrite Hs, Hd, Hlast by reflexivity. by split.
Defined.

(** ** Merging *)

Lemma keysDistinct_object entries :
  keysDistinct (JObject entries) = true ↔
  NoDup (keys entries) ∧ Forall (λ e, keysDistinct e.2 = true) entries.
Proof.
  simpl. rewrite andb_true_iff, bool_decide_eq_true, forallb_Forall. done.
Qed.

Lemma keysDistinct_child key child entries :
  keysDistinct (JObject entries) = true → lookupKey key entries = Some child →
  keysDistinct child = true.
Proof.
  intros [_ Hall]%keysDistinct_object Hk%lookupKey_Some_elem_of.
  rewrite Forall_forall in Hall. by apply (Hall (key, child)).
Qed.

Lemma is_json_keysDistinct value : is_json value = true → keysDistinct value = true.
Proof.
  induction value as [| | | | |items IH|entries IH] using JsonValue_deep_ind; try done.
  - rewrite is_json_array. simpl. rewrite forallb_Forall, !Forall_forall in *.
    intros Hj item Hin. by apply IH, Hj.
  - rewrite is_json_object, keysDistinct_object, !Forall_forall in *.
    intros [Hnd Hj]. split; [done|]. intros e Hin. by apply IH, Hj.
Qed.

Lemma merge_loop_unchanged (baseEntries l result : Entries) :
  Forall (λ e, lookupKey e.1 result = Some e.2 ∧
               deepMerge (prop e.1 baseEntries) e.2 = e.2) l →
  foldl (λ result '(key, value),
           assign key (deepMerge (prop key baseEntries) value) result) result l
  = result.
Proof.
  induction 1 as [|[k v] l [Hk Hm] _ IH]; [done|].
  simpl in *. by rewrite Hm, assign_same.
Qed.

(** X13.  Merging a value onto itself gives the value back. *)
Theorem deepMerge_self (value : JsonValue) :
  keysDistinct value = true → deepMerge value value = value.
Proof.
  induction value as [| | | | |items IH|entries IH] using JsonValue_deep_ind; try done.
  intros [Hnd Hall]%keysDistinct_object. simpl. f_equal.
  apply merge_loop_unchanged. rewrite Forall_forall in *. intros [k v] Hin.
  pose proof (elem_of_lookupKey_Some _ _ _ Hnd Hin) as Hk. simpl.
  split; [done|]. unfold prop. rewrite Hk. simpl. by apply (IH _ Hin), (Hall _ Hin).
Qed.

Lemma deepMerge_self_witness :
  deepMerge (JObject [("x", JInt 1); ("y", JObject [("z", JInt 2)])])
    (JObject [("x", JInt 1); ("y", JObject [("z", JInt 2)])])
  = JObject [("x", JInt 1); ("y", JObject [("z", JInt 2)])].
Proof. apply deepMerge_self. reflexivity. Defined.

Lemma filter_not_in_snoc (seen l : list string) (k : string) :
  k ∉ l → filter (λ x, x ∉ seen ++ [k]) l = filter (λ x, x ∉ seen) l.
Proof.
  induction l as [|x l IH]; [done|].
  rewrite not_elem_of_cons. intros [Hne Hin]. rewrite !filter_cons, IH by done.
  destruct (decide (x ∉ seen)) as [Hx|Hx].
  - rewrite decide_True; [done|]. rewrite not_elem_of_app, list_elem_of_singleton.
    split; [done|congruence].
  - rewrite decide_False; [done|]. rewrite not_elem_of_app. by intros [? _].
Qed.

Lemma elem_of_keys key entries : key ∈ keys entries ↔ is_Some (lookupKey key entries).
Proof.
  split.
  - intros Hin. destruct (lookupKey key entries) eqn:Hk; [by eexists|].
    by apply lookupKey_None in Hk.
  - intros [child Hk]. by eapply lookupKey_Some_keys.
Qed.

Lemma elem_of_keys_assign key key' value entries :
  key' ∈ keys entries → key' ∈ keys (assign key value entries).
Proof.
  rewrite !elem_of_keys. intros [child Hk]. destruct (decide (key = key')) as [->|Hne].
  - erewrite lookupKey_assign_own by done. by eexists.
  - rewrite lookupKey_assign_ne by done. by eexists.
Qed.

Lemma keys_merge_loop (baseEntries l result : Entries) :
  NoDup (keys l) →
  Forall (λ k, k ∈ keys result ∨ (arrayIndex k = None ∧ k ≠ "__proto__")) (keys l) →
  keys (foldl (λ result '(key, value),
                 assign key (deepMerge (prop key baseEntries) value) result) result l)
  = keys result ++ filter (λ k, k ∉ keys result) (keys l).
Proof.
  revert result. induction l as [|[k v] l IH]; intros result Hnd Hall.
  - simpl. by rewrite app_nil_r.
  - rewrite keys_cons in *. apply NoDup_cons in Hnd as [Hk Hnd].
    apply Forall_cons in Hall as [Hhead Hall]. simpl foldl. rewrite IH; [|done|].
    + rewrite filter_cons. destruct (decide (k ∈ keys result)) as [Hin|Hin].
      * apply elem_of_keys in Hin as Hown. destruct Hown as [old Hown].
        erewrite keys_assign_own by done.
        by rewrite decide_False by (intros Hn; by apply Hn).
      * destruct Hhead as [?|[Hindex Hproto]]; [done|].
        rewrite keys_assign_absent by (by rewrite ?lookupKey_None).
        rewrite decide_True by done. rewrite filter_not_in_snoc by done.
        by rewrite <-app_assoc.
    + eapply Forall_impl; [done|]. intros k' [Hin|Hplain]; [left|by right].
      by apply elem_of_keys_assign.
Qed.

Lemma elem_of_keys_merge (base overlay : Entries) (k : string) :
  NoDup (keys overlay) →
  k ∈ keys (mergeEntries base overlay)
  ↔ k ∈ keys base ∨ (k ∈ keys overlay ∧ k ≠ "__proto__").
Proof.
  intros Hnd. unfold mergeEntries. rewrite !elem_of_keys.
  destruct (decide (k = "__proto__" ∧ lookupKey k base = None)) as [[-> Hbase]|Hown].
  - rewrite lookupKey_merge_loop_proto, Hbase by done. split.
    + by intros [? ?].
    + intros [[? ?]|[_ ?]]; done.
  - rewrite lookupKey_merge_loop; [|done|].
    + destruct (lookupKey k overlay) as [v|], (lookupKey k base) as [b|] eqn:Hbase; split;
        try (intros _; by eexists); try (by left); try (by intros [? ?]).
      * intros _. right. split; [by eexists|]. intros ->. by apply Hown.
      * intros [[? ?]|[[? ?] _]]; done.
    + destruct (decide (k = "__proto__")) as [->|Hne]; [|by left]. right.
      destruct (lookupKey "__proto__" base) eqn:Hbase; [by eexists|]. by destruct Hown.
Qed.

(** X14.  The keys of a merge of two mappings are the keys of [base] and the
    keys of [overlay], but for a [__proto__] that only [overlay] has.  When
    the keys that only [overlay] has are neither array indices nor
    [__proto__], they are the keys of [base], in their order, followed by
    the keys that only [overlay] has, in the order of [overlay]. *)
Theorem deepMerge_keys (base overlay : Entries) :
  NoDup (keys overlay) →
  ∃ merged,
    deepMerge (JObject base) (JObject overlay) = JObject merged ∧
    (∀ k, k ∈ keys merged ↔ k ∈ keys base ∨ (k ∈ keys overlay ∧ k ≠ "__proto__")) ∧
    (Forall (λ k, k ∈ keys base ∨ (arrayIndex k = None ∧ k ≠ "__proto__")) (keys overlay) →
     keys merged = keys base ++ filter (λ k, k ∉ keys base) (keys overlay)).
Proof.
  intros Hnd. exists (mergeEntries base overlay). split; [done|]. split.
  - intros k. by apply elem_of_keys_merge.
  - intros Hall. by apply keys_merge_loop.
Qed.

Lemma deepMerge_keys_witness :
  ∃ merged,
    deepMerge (JObject [("x", JInt 1); ("y", JInt 2)])
      (JObject [("w", JInt 9); ("y", JInt 5)]) = JObject merged ∧
    keys merged = ["x"; "y"; "w"].
Proof.
  destruct (deepMerge_keys [("x", JInt 1); ("y", JInt 2)] [("w", JInt 9); ("y", JInt 5)])
    as (merged & Hm & _ & Hk).
  - apply NoDup_cons. split; [|apply NoDup_singleton].
    intros [=]%list_elem_of_singleton.
  - exists merged. split; [exact Hm|]. rewrite Hk; [reflexivity|].
    apply Forall_cons. split; [right; split; [reflexivity|discriminate]|].
    apply Forall_cons. split; [|apply Forall_nil_2].
    left. apply list_elem_of_further, list_elem_of_here.
Defined.

(** X15.  What the overlay holds wins: a valid path of [overlay] without
    the key [__proto__] that leads to a scalar or an array is valid in the
    merge and leads to the same value, whatever [base] is. *)
Theorem deepMerge_overlay_wins (base overlay : JsonValue) (path : JsonPath)
    (node : JsonValue) :
  keysDistinct overlay = true →
  SKey "__proto__" ∉ path →
  resolve overlay path = Some node →
  isObject node = false →
  resolve (deepMerge base overlay) path = Some node.
Proof.
  revert base overlay.
  induction path as [|head rest IH]; intros base overlay Hd Hproto Hres Hnode.
  - simpl in Hres. injection Hres as ->. by rewrite deepMerge_not_object.
  - apply not_elem_of_cons in Hproto as [Hhead Hrest].
    destruct overlay as [| | | | |items|entries]; try done.
    destruct head as [k|i]; [|done]. simpl in Hres.
    destruct (lookupKey k entries) as [child|] eqn:Hk; [|done].
    destruct base as [| | | | | |baseEntries]; try (simpl; by rewrite Hk).
    pose proof Hd as [Hnd _]%keysDistinct_object.
    simpl. rewrite lookupKey_merge_loop, Hk; [|done|left; congruence].
    apply IH; [by eapply keysDistinct_child|done|done|done].
Qed.

Lemma deepMerge_overlay_wins_witness :
  resolve (deepMerge (JObject [("y", JObject [("z", JInt 2)])])
             (JObject [("y", JObject [("z", JInt 5)])])) [SKey "y"; SKey "z"]
  = Some (JInt 5).
Proof.
  apply deepMerge_overlay_wins; [reflexivity| |reflexivity|reflexivity].
  rewrite !not_elem_of_cons. repeat split; [discriminate..|apply not_elem_of_nil].
Defined.





Lemma is_json_child key child entries :
  is_json (JObject entries) = true → lookupKey key entries = Some child →
  is_json child = true.
Proof.
  intros [_ Hall]%is_json_object Hk%lookupKey_Some_elem_of.
  rewrite Forall_forall in Hall. by apply (Hall (key, child)).
Qed.

Lemma is_json_merge_loop (baseEntries l result : Entries) :
  Forall (λ e, is_json (deepMerge (prop e.1 baseEntries) e.2) = true) l →
  is_json (JObject result) = true →
  is_json (JObject (foldl (λ result '(key, value),
                             assign key (deepMerge (prop key baseEntries) value) result)
                      result l)) = true.
Proof.
  intros Hall. revert result. induction Hall as [|[k v] l Hkv _ IH]; intros result Hres.
  - done.
  - simpl foldl. apply IH. by apply is_json_assign.
Qed.

Lemma deepMerge_json_onto (base override : JsonValue) :
  is_json override = true →
  (isObject base = true → is_json base = true) →
  is_json (deepMerge base override) = true.
Proof.
  revert base.
  induction override as [| | | | |items IH|entries IH] using JsonValue_deep_ind;
    intros base Hover Hbase; try done.
  destruct base as [| | | | | |baseEntries]; try done.
  simpl. apply is_json_merge_loop; [|by apply Hbase].
  pose proof Hover as [_ Hall]%is_json_object.
  rewrite Forall_forall in *. intros [k v] Hin. simpl.
  apply (IH _ Hin); [by apply (Hall _ Hin)|].
  unfold prop. destruct (lookupKey k baseEntries) as [child|] eqn:Hk; [|done].
  intros _. simpl. eapply is_json_child; [by apply Hbase|done].
Qed.

(** X17.  Merging two values of the declared type gives a value of the
    declared type: no [undefined] comes in and the keys of every mapping
    stay distinct. *)
Theorem deepMerge_keeps_json (base override : JsonValue) :
  is_json base = true → is_json override = true →
  is_json (deepMerge base override) = true.
Proof. intros Hbase Hover. by apply deepMerge_json_onto. Qed.

Lemma deepMerge_keeps_json_witness :
  is_json (deepMerge (JObject [("x", JInt 1)]) (JObject [("y", JArray [])])) = true.
Proof. apply deepMerge_keeps_json; reflexivity. Defined.

(** ** Cloning *)

Lemma jsonRoundTrip_defined value : jsonRoundTrip value ≠ JUndefined.
Proof. destruct value as [| | |[]| | |]; done. Qed.

(** Cloning a clone changes nothing. *)
Lemma jsonRoundTrip_idem value :
  jsonRoundTrip (jsonRoundTrip value) = jsonRoundTrip value.
Proof.
  induction value as [| | |n| |items IH|entries IH] using JsonValue_deep_ind; try done.
  - by destruct n as [[]| | |].
  - simpl. f_equal. rewrite map_map. apply map_ext_Forall. done.
  - simpl. f_equal. induction IH as [|[k child] rest Hchild _ IHrest]; [done|].
    simpl in Hchild. destruct child; simpl in *; try done;
      try (by rewrite ?Hchild, IHrest).
    destruct n as [[]| | |]; simpl; by rewrite IHrest.
Qed.

Lemma jsonRoundTrip_plain value : plain (jsonRoundTrip value) = true.
Proof.
  induction value as [| | |n| |items IH|entries IH] using JsonValue_deep_ind; try done.
  - by destruct n as [[]| | |].
  - simpl. apply forallb_Forall, Forall_map. done.
  - simpl. apply forallb_Forall.
    induction IH as [|[k child] rest Hchild _ IHrest]; [by constructor|].
    simpl in Hchild.
    destruct child; simpl; try done; by constructor.
Qed.

Lemma plain_jsonRoundTrip value : plain value = true → jsonRoundTrip value = value.
Proof.
  induction value as [| | |n| |items IH|entries IH] using JsonValue_deep_ind; try done.
  - by destruct n as [[]| | |].
  - simpl. rewrite forallb_Forall. intros Hall. f_equal.
    induction IH as [|item rest Hitem _ IHrest]; [done|].
    apply Forall_cons in Hall as [? ?]. simpl. by rewrite Hitem, IHrest.
  - simpl. rewrite forallb_Forall. intros Hall. f_equal.
    induction IH as [|[k child] rest Hchild _ IHrest]; [done|].
    apply Forall_cons in Hall as [Hc ?]. simpl in *.
    rewrite IHrest by done. destruct child; try done; by rewrite Hchild.
Qed.

Lemma keys_jsonRoundTrip_entries (entries : Entries) (k : string) :
  k ∈ keys (flat_map (λ '(key, child),
                        match child with
                        | JUndefined => []
                        | _ => [(key, jsonRoundTrip child)]
                        end) entries) →
  k ∈ keys entries.
Proof.
  induction entries as [|[k0 child] rest IH]; [done|].
  change (keys ((k0, child) :: rest)) with (k0 :: keys rest).
  simpl flat_map. unfold keys at 1. rewrite fmap_app, elem_of_app. intros [Hin|Hin].
  - destruct child; simpl in Hin;
      try (apply list_elem_of_singleton in Hin as ->; apply list_elem_of_here).
    by apply elem_of_nil in Hin.
  - by apply list_elem_of_further, IH.
Qed.

Lemma jsonRoundTrip_json value :
  keysDistinct value = true → value ≠ JUndefined → is_json (jsonRoundTrip value) = true.
Proof.
  induction value as [| | |n| |items IH|entries IH] using JsonValue_deep_ind;
    intros Hd Hdef; try done.
  - by destruct n as [[]| | |].
  - simpl in *. rewrite forallb_Forall in *. apply Forall_map. simpl.
    rewrite Forall_forall in *. intros item Hin.
    destruct item; try done; (apply (IH _ Hin); [by apply (Hd _ Hin)|done]).
  - apply keysDistinct_object in Hd as [Hnd Hd].
    change (jsonRoundTrip (JObject entries)) with
      (JObject (flat_map (λ '(key, child),
                            match child with
                            | JUndefined => []
                            | _ => [(key, jsonRoundTrip child)]
                            end) entries)).
    apply is_json_object. clear Hdef.
    induction entries as [|[k child] rest IHrest]; [split; constructor|].
    change (keys ((k, child) :: rest)) with (k :: keys rest) in Hnd.
    apply NoDup_cons in Hnd as [Hk Hnd].
    apply Forall_cons in IH as [Hchild IH]. apply Forall_cons in Hd as [Hdc Hd].
    destruct (IHrest IH Hnd Hd) as [Hnd' Hall']. simpl in Hchild, Hdc.
    assert (k ∉ keys (flat_map (λ '(key, child),
                                  match child with
                                  | JUndefined => []
                                  | _ => [(key, jsonRoundTrip child)]
                                  end) rest)) as Hk'
      by (intros Hin; by apply Hk, keys_jsonRoundTrip_entries).
    destruct child; simpl; try done;
      (split; [by apply NoDup_cons|apply Forall_cons; split; [|done]]);
      try done; simpl; by apply Hchild.
Qed.

(** X18.  [clone] throws on [undefined] alone.  Of any other value it gives
    a value of the declared type that a JSON text denotes, and that is its
    own clone.  A value that a JSON text denotes (no [undefined], no [NaN],
    no infinity, no negative zero) is cloned to itself. *)
Theorem clone_json (value : JsonValue) :
  (clone value = None ↔ value = JUndefined) ∧
  (keysDistinct value = true → value ≠ JUndefined →
   ∃ fresh, clone value = Some fresh ∧
            is_json fresh = true ∧ plain fresh = true ∧ clone fresh = Some fresh) ∧
  (plain value = true → clone value = Some value).
Proof.
  split; [|split].
  - by destruct value.
  - intros Hd Hdef. exists (jsonRoundTrip value).
    split; [by destruct value|]. split; [by apply jsonRoundTrip_json|].
    split; [apply jsonRoundTrip_plain|].
    pose proof (jsonRoundTrip_defined value) as Hne.
    pose proof (jsonRoundTrip_idem value) as Hidem.
    unfold clone. destruct (jsonRoundTrip value); try done; by rewrite Hidem.
  - intros Hp. unfold clone. rewrite plain_jsonRoundTrip by done. by destruct value.
Qed.

Lemma clone_json_witness :
  (∃ fresh,
     clone (JObject [("a", JUndefined); ("b", JArray [JUndefined; JNumber S754_nan])])
       = Some fresh ∧
     is_json fresh = true) ∧
  clone (JObject [("a", JArray [JInt 1; JBool true; JNull])])
  = Some (JObject [("a", JArray [JInt 1; JBool true; JNull])]).
Proof.
  split.
  - destruct (proj1 (proj2 (clone_json
                (JObject [("a", JUndefined); ("b", JArray [JUndefined; JNumber S754_nan])]))))
      as (fresh & Hc & Hj & _); [reflexivity|discriminate|].
    by exists fresh.
  - apply (proj2 (proj2 (clone_json (JObject [("a", JArray [JInt 1; JBool true; JNull])])))).
    reflexivity.
Defined.

(** ** The configuration handlers, composed *)

Lemma withState_withState mode first second states :
  withState mode second (withState mode first states) = withState mode second states.
Proof. by destruct mode. Qed.

(** X19.  Loading a file forgets the edits made before in that mode: the
    new configuration is made of the defaults and of the file alone. *)
Theorem load_forgets_edits (mode : RunMode) (selected : string) (loaded : JsonValue)
    (path : JsonPath) (value : JsonValue) (app : App) :
  selected ≠ "" →
  loadConfigFromFile mode (Some selected) loaded (handleUpdate mode path value app)
  = loadConfigFromFile mode (Some selected) loaded app.
Proof.
  intros Hsel. unfold loadConfigFromFile, handleUpdate.
  destruct (decide (selected = "")) as [|_]; [done|].
  destruct (stateOf mode (configStates app)) as [state|] eqn:Hstate.
  - simpl. rewrite stateOf_withState. simpl. by rewrite withState_withState.
  - by rewrite Hstate.
Qed.

Lemma load_forgets_edits_witness :
  let state := mkConfigState (JObject [("a", JInt 1)]) (JObject [("a", JInt 1)]) ∅
                 fallback None None in
  let app := mkApp (mkConfigStates (Some state) None) None in
  loadConfigFromFile buildSpecLib (Some "f.json") (JObject [])
    (handleUpdate buildSpecLib [SKey "a"] (JInt 2) app)
  = loadConfigFromFile buildSpecLib (Some "f.json") (JObject []) app.
Proof. intros state app. apply load_forgets_edits. discriminate. Defined.

(** X20.  A reset forgets whatever was done before in that mode, an edit, a
    loaded file or an earlier reset, provided the defaults of the mode can
    be cloned (are not [undefined]). *)
Theorem reset_forgets (action : Action) (app : App) :
  (∀ state, stateOf (modeOf action) (configStates app) = Some state →
            defaults state ≠ JUndefined) →
  resetToDefaults (modeOf action) (act action app)
  = resetToDefaults (modeOf action) app.
Proof.
  intros Hdef.
  assert (∀ state, stateOf (modeOf action) (configStates app) = Some state →
                   ∃ fresh, clone (defaults state) = Some fresh) as Hclone.
  { intros state Hstate. specialize (Hdef state Hstate).
    destruct (defaults state); try done; by eexists. }
  destruct action as [mode path value|mode selected loaded|mode]; simpl in *.
  - unfold resetToDefaults, handleUpdate.
    destruct (stateOf mode (configStates app)) as [state|] eqn:Hstate.
    + destruct (Hclone state eq_refl) as [fresh Hfresh].
      simpl. rewrite stateOf_withState. simpl. by rewrite Hfresh, withState_withState.
    + by rewrite Hstate.
  - unfold resetToDefaults, loadConfigFromFile.
    destruct selected as [selected|]; [|done]. case_decide; [done|].
    destruct (stateOf mode (configStates app)) as [state|] eqn:Hstate.
    + destruct (Hclone state eq_refl) as [fresh Hfresh].
      simpl. rewrite stateOf_withState. simpl. by rewrite Hfresh, withState_withState.
    + by rewrite Hstate.
  - unfold resetToDefaults.
    destruct (stateOf mode (configStates app)) as [state|] eqn:Hstate.
    + destruct (Hclone state eq_refl) as [fresh Hfresh]. rewrite Hfresh.
      simpl. rewrite stateOf_withState. simpl. by rewrite Hfresh, withState_withState.
    + by rewrite Hstate.
Qed.

Lemma reset_forgets_witness :
  let state := mkConfigState (JObject [("a", JInt 1)]) (JObject [("a", JInt 1)]) ∅
                 fallback None None in
  let app := mkApp (mkConfigStates (Some state) None) None in
  resetToDefaults buildSpecLib (handleUpdate buildSpecLib [SKey "a"] (JInt 2) app)
  = resetToDefaults buildSpecLib app.
Proof.
  intros state app. apply (reset_forgets (Edit buildSpecLib [SKey "a"] (JInt 2)) app).
  intros s [= <-]. discriminate.
Defined.

(** ** Start-up *)

Lemma computeImportant_is_Some value :
  is_Some (computeImportant value) ↔ defined value = true.
Proof.
  unfold computeImportant. rewrite <-(collectPaths_is_Some value []).
  destruct (collectPaths value []) as [rawPaths|]; split; intros [x Hx]; try done;
    by eexists.
Qed.

Lemma clone_is_Some value : is_Some (clone value) ↔ value ≠ JUndefined.
Proof. destruct value; split; try done; try (by eexists); by intros [? ?]. Qed.

Lemma coalesce_defined persisted default :
  default ≠ JUndefined → coalesce persisted default ≠ JUndefined.
Proof. by destruct persisted. Qed.

Lemma initialState_is_Some (set : ConfigSet) (source : ConfigSource) :
  is_Some (initialState set source) ↔
  default_config set ≠ JUndefined ∧ defined (simplified_config set) = true.
Proof.
  unfold initialState. split.
  - intros [state Hstate].
    destruct (computeImportant (simplified_config set)) as [members|] eqn:Hi; [|done].
    destruct (clone (default_config set)) as [d|] eqn:Hd; [|done].
    split.
    + apply clone_is_Some. by eexists.
    + apply computeImportant_is_Some. by eexists.
  - intros [Hd Hs].
    apply computeImportant_is_Some in Hs as [members ->].
    pose proof (proj2 (clone_is_Some _) Hd) as [d ->].
    pose proof (proj2 (clone_is_Some _)
                  (coalesce_defined (persisted_config set) _ Hd)) as [c ->].
    by eexists.
Qed.

Lemma initialState_Some (set : ConfigSet) (src : ConfigSource) (state : ConfigState) :
  initialState set src = Some state →
  defaults state = jsonRoundTrip (default_config set) ∧
  current state
    = jsonRoundTrip (coalesce (persisted_config set) (default_config set)) ∧
  computeImportant (simplified_config set) = Some (important state) ∧
  source state = src ∧
  lastLoadedPath state
    = (if truthy (persisted_config set) then persisted_path set else None) ∧
  persistedPath state = persisted_path set ∧
  default_config set ≠ JUndefined.
Proof.
  unfold initialState. intros Hstate.
  destruct (computeImportant (simplified_config set)) as [members|] eqn:Hi; [|done].
  destruct (clone (default_config set)) as [d|] eqn:Hd; [|done].
  destruct (clone (coalesce (persisted_config set) (default_config set)))
    as [c|] eqn:Hc; [|done].
  simpl in Hstate. injection Hstate as <-. simpl.
  assert (default_config set ≠ JUndefined) as Hdef
    by (apply clone_is_Some; by eexists).
  repeat split; try done.
  - unfold clone in Hd. destruct (default_config set); try done; by injection Hd.
  - unfold clone in Hc.
    destruct (coalesce (persisted_config set) (default_config set)); try done;
      by injection Hc.
Qed.

(** X21.  [initialiseState] assigns the states exactly when, for both
    modes, the default configuration is not [undefined] and the simplified
    configuration holds no [undefined]; otherwise it throws. *)
Theorem initialiseState_succeeds (response : LoadConfigsResponse) :
  is_Some (initialiseState response) ↔
  ∀ mode, default_config (configSetOf mode response) ≠ JUndefined ∧
          defined (simplified_config (configSetOf mode response)) = true.
Proof.
  unfold initialiseState. split.
  - intros [states Hstates] mode.
    destruct (initialState (build response) _) as [b|] eqn:Hb; [|done].
    destruct (initialState (search response) _) as [s|] eqn:Hs; [|done].
    destruct mode; simpl; apply (initialState_is_Some _ (response_source response));
      by eexists.
  - intros Hall.
    destruct (proj2 (initialState_is_Some (build response) (response_source response))
                (Hall buildSpecLib)) as [b ->].
    destruct (proj2 (initialState_is_Some (search response) (response_source response))
                (Hall searchDia)) as [s ->].
    by eexists.
Qed.

Lemma initialiseState_succeeds_witness :
  let set := mkConfigSet (JObject [("a", JInt 1)]) (JObject [("a", JInt 1)]) JUndefined None in
  is_Some (initialiseState (mkLoadConfigsResponse set set binary None)).
Proof.
  intros set. apply initialiseState_succeeds. intros []; split; (discriminate || reflexivity).
Defined.

Lemma initialiseState_Some response states mode :
  initialiseState response = Some states →
  ∃ state, stateOf mode states = Some state ∧
           initialState (configSetOf mode response) (response_source response)
           = Some state.
Proof.
  unfold initialiseState. intros Hstates.
  destruct (initialState (build response) _) as [b|] eqn:Hb; [|done].
  destruct (initialState (search response) _) as [s|] eqn:Hs; [|done].
  simpl in Hstates. injection Hstates as <-. destruct mode; by eexists.
Qed.

(** X22.  After [initialiseState] each mode has a state whose defaults are
    the clone of its default configuration.  Without a persisted
    configuration ([undefined] or [null]) the current configuration is the
    defaults and no file counts as loaded.  With one, the current
    configuration is its clone as it is: it is not merged onto the
    defaults. *)
Theorem initialiseState_states (response : LoadConfigsResponse) (states : ConfigStates)
    (mode : RunMode) :
  initialiseState response = Some states →
  ∃ state,
    stateOf mode states = Some state ∧
    defaults state = jsonRoundTrip (default_config (configSetOf mode response)) ∧
    (persisted_config (configSetOf mode response) = JUndefined ∨
     persisted_config (configSetOf mode response) = JNull →
     current state = defaults state ∧ lastLoadedPath state = None) ∧
    (persisted_config (configSetOf mode response) ≠ JUndefined →
     persisted_config (configSetOf mode response) ≠ JNull →
     current state = jsonRoundTrip (persisted_config (configSetOf mode response))).
Proof.
  intros Hinit. destruct (initialiseState_Some _ _ mode Hinit) as (state & Hstate & Hmode).
  exists state. split; [done|].
  apply initialState_Some in Hmode as (Hd & Hc & _ & _ & Hl & _).
  split; [done|]. split.
  - intros [Hp|Hp]; rewrite Hp in Hc, Hl; simpl in *; by rewrite Hd, Hc, Hl.
  - intros Hu Hn. rewrite Hc. by destruct (persisted_config (configSetOf mode response)).
Qed.

Lemma initialiseState_states_witness :
  let set := mkConfigSet (JObject [("a", JInt 1)]) (JObject [("a", JInt 1)]) JNull None in
  let response := mkLoadConfigsResponse set set fallback None in
  ∃ states state,
    initialiseState response = Some states ∧
    stateOf buildSpecLib states = Some state ∧
    current state = defaults state.
Proof.
  intros set response.
  destruct (initialiseState response) as [states|] eqn:Hinit; [|discriminate].
  destruct (initialiseState_states response states buildSpecLib Hinit)
    as (state & Hstate & _ & Hfresh & _).
  exists states, state. split; [reflexivity|]. split; [exact Hstate|].
  apply Hfresh. right. reflexivity.
Defined.

(** ** What the handlers keep *)

Ltac same_or_other mode other :=
  destruct (decide (other = mode)) as [->|?];
  [rewrite stateOf_withState | rewrite stateOf_withState_ne by done].

(** One action of the panel: every mode keeps a state when it has one, with
    the same defaults, important set, source and stored path, and the
    states stay sound. *)
Lemma act_keeps (action : Action) (app : App) :
  (∀ mode state, stateOf mode (configStates app) = Some state → sound state) →
  wellFormed action app →
  ∀ mode,
    match stateOf mode (configStates app) with
    | None => stateOf mode (configStates (act action app)) = None
    | Some state =>
        ∃ state', stateOf mode (configStates (act action app)) = Some state' ∧
                  sound state' ∧
                  defaults state' = defaults state ∧
                  important state' = important state ∧
                  source state' = source state ∧
                  persistedPath state' = persistedPath state
    end.
Proof.
  intros Hsound Hwf other.
  assert (∀ state, stateOf other (configStates app) = Some state →
                   ∃ state', Some state = Some state' ∧ sound state' ∧
                             defaults state' = defaults state ∧
                             important state' = important state ∧
                             source state' = source state ∧
                             persistedPath state' = persistedPath state) as Hsame.
  { intros state Hstate. exists state. by split; [|split; [eapply Hsound|]]. }
  destruct action as [mode path value|mode selected loaded|mode]; simpl in *.
  - unfold handleUpdate.
    destruct (stateOf mode (configStates app)) as [state|] eqn:Hstate.
    + simpl. same_or_other mode other.
      * rewrite Hstate. eexists. split; [done|]. simpl.
        destruct (Hsound _ _ Hstate) as (Hd & Hc & Hcl), Hwf as [Hv Hfits].
        split; [|done]. split; [done|]. split; [|done]. simpl.
        apply is_json_setValue; [done|done|by apply Hfits].
      * destruct (stateOf other (configStates app)) eqn:Hother; [by apply Hsame|done].
    + destruct (stateOf other (configStates app)) eqn:Hother; [by apply Hsame|done].
  - unfold loadConfigFromFile.
    destruct selected as [selected|];
      [|destruct (stateOf other (configStates app)) eqn:Hother; [by apply Hsame|done]].
    case_decide;
      [destruct (stateOf other (configStates app)) eqn:Hother; [by apply Hsame|done]|].
    destruct (stateOf mode (configStates app)) as [state|] eqn:Hstate.
    + simpl. same_or_other mode other.
      * rewrite Hstate. eexists. split; [done|]. simpl.
        destruct (Hsound _ _ Hstate) as (Hd & Hc & Hcl).
        split; [|done]. split; [done|]. split; [|done]. simpl.
        by apply deepMerge_json_onto.
      * destruct (stateOf other (configStates app)) eqn:Hother; [by apply Hsame|done].
    + destruct (stateOf other (configStates app)) eqn:Hother; [by apply Hsame|done].
  - unfold resetToDefaults.
    destruct (stateOf mode (configStates app)) as [state|] eqn:Hstate.
    + destruct (clone (defaults state)) as [fresh|] eqn:Hfresh.
      * simpl. same_or_other mode other.
        -- rewrite Hstate. eexists. split; [done|]. simpl.
           destruct (Hsound _ _ Hstate) as (Hd & Hc & Hcl).
           split; [|done]. split; [done|]. split; [|done]. simpl.
           rewrite Hcl in Hfresh. by injection Hfresh as <-.
        -- destruct (stateOf other (configStates app)) eqn:Hother; [by apply Hsame|done].
      * destruct (stateOf other (configStates app)) eqn:Hother; [by apply Hsame|done].
    + destruct (stateOf other (configStates app)) eqn:Hother; [by apply Hsame|done].
Qed.

(** X23.  Through any sequence of edits that fit, loaded files and resets,
    on values of the declared type, each mode that has a state keeps one;
    its defaults, important set, source and stored path never change; and
    its defaults and current configuration stay values of the declared
    type. *)
Theorem reaches_keeps (app app' : App) :
  (∀ mode state, stateOf mode (configStates app) = Some state → sound state) →
  reaches app app' →
  ∀ mode state,
    stateOf mode (configStates app) = Some state →
    ∃ state', stateOf mode (configStates app') = Some state' ∧
              is_json (defaults state') = true ∧
              is_json (current state') = true ∧
              defaults state' = defaults state ∧
              important state' = important state ∧
              source state' = source state ∧
              persistedPath state' = persistedPath state.
Proof.
  intros Hsound Hreach.
  assert ((∀ mode state', stateOf mode (configStates app') = Some state' → sound state') ∧
          ∀ mode state,
            stateOf mode (configStates app) = Some state →
            ∃ state', stateOf mode (configStates app') = Some state' ∧
                      defaults state' = defaults state ∧
                      important state' = important state ∧
                      source state' = source state ∧
                      persistedPath state' = persistedPath state) as [Hs' Hk].
  { induction Hreach as [|action mid Hreach [IHs IHk] Hwf].
    - split; [done|]. intros mode state Hstate. by exists state.
    - pose proof (act_keeps action mid IHs Hwf) as Hact. split.
      + intros mode state' Hstate'. specialize (Hact mode).
        destruct (stateOf mode (configStates mid)) as [state|];
          [|congruence].
        destruct Hact as (s & Hs & Hsound' & _). congruence.
      + intros mode state Hstate.
        destruct (IHk mode state Hstate) as (m & Hm & Hd & Hi & Hsrc & Hp).
        specialize (Hact mode). rewrite Hm in Hact.
        destruct Hact as (s & Hs & _ & Hd' & Hi' & Hsrc' & Hp').
        exists s. split; [done|]. by rewrite Hd', Hi', Hsrc', Hp'. }
  intros mode state Hstate.
  destruct (Hk mode state Hstate) as (state' & Hstate' & Hrest).
  exists state'. split; [done|].
  destruct (Hs' mode state' Hstate') as (Hd & Hc & _). by split; [|split].
Qed.

Lemma reaches_keeps_witness :
  let state := mkConfigState (JObject [("a", JInt 1)]) (JObject [("a", JInt 1)]) ∅
                 fallback None None in
  let app := mkApp (mkConfigStates (Some state) None) None in
  ∃ state',
    stateOf buildSpecLib
      (configStates (act (Reset buildSpecLib)
                       (act (Edit buildSpecLib [SKey "a"] (JInt 2)) app))) = Some state' ∧
    defaults state' = defaults state.
Proof.
  intros state app.
  destruct (reaches_keeps app
              (act (Reset buildSpecLib) (act (Edit buildSpecLib [SKey "a"] (JInt 2)) app)))
    with (mode := buildSpecLib) (state := state)
    as (state' & Hstate' & _ & _ & Hd & _).
  - intros [] s [= <-]. repeat split; reflexivity.
  - apply reaches_act; [apply reaches_act; [apply reaches_here|]|].
    + split; [reflexivity|]. intros s [= <-]. reflexivity.
    + exact I.
  - reflexivity.
  - by exists state'.
Defined.

Lemma coalesce_keysDistinct persisted default :
  keysDistinct persisted = true → keysDistinct default = true →
  keysDistinct (coalesce persisted default) = true.
Proof. by destruct persisted. Qed.

Lemma initialState_sound set src state :
  keysDistinct (default_config set) = true →
  keysDistinct (persisted_config set) = true →
  initialState set src = Some state → sound state.
Proof.
  intros Hkd Hkp Hstate.
  apply initialState_Some in Hstate as (Hd & Hc & _ & _ & _ & _ & Hdef).
  unfold sound. rewrite Hd, Hc. split; [|split].
  - by apply jsonRoundTrip_json.
  - apply jsonRoundTrip_json; [by apply coalesce_keysDistinct|by apply coalesce_defined].
  - pose proof (jsonRoundTrip_defined (default_config set)) as Hne.
    pose proof (jsonRoundTrip_idem (default_config set)) as Hidem.
    unfold clone. destruct (jsonRoundTrip (default_config set)); try done; by rewrite Hidem.
Qed.

(** X24.  From the states that [initialiseState] makes, after any sequence
    of edits that fit, loaded files and resets, a reset of a mode gives a
    current configuration that is the defaults of the mode, which still are
    the clone of the default configuration received at start-up; no file
    counts as loaded then. *)
Theorem reset_restores_defaults (response : LoadConfigsResponse) (states : ConfigStates)
    (app : App) (mode : RunMode) :
  (∀ m, keysDistinct (default_config (configSetOf m response)) = true ∧
        keysDistinct (persisted_config (configSetOf m response)) = true) →
  initialiseState response = Some states →
  reaches (mkApp states None) app →
  ∃ state,
    stateOf mode (configStates (resetToDefaults mode app)) = Some state ∧
    current state = defaults state ∧
    defaults state = jsonRoundTrip (default_config (configSetOf mode response)) ∧
    lastLoadedPath state = None.
Proof.
  intros Hkeys Hinit Hreach.
  assert (∀ m s, stateOf m (configStates (mkApp states None)) = Some s → sound s) as Hsound.
  { intros m s Hs. destruct (initialiseState_Some _ _ m Hinit) as (s0 & Hs0 & Hm).
    simpl in Hs. rewrite Hs0 in Hs. injection Hs as <-.
    destruct (Hkeys m). by eapply initialState_sound. }
  destruct (initialiseState_Some _ _ mode Hinit) as (s0 & Hs0 & Hm).
  assert ((∀ m s, stateOf m (configStates app) = Some s → sound s) ∧
          ∃ s, stateOf mode (configStates app) = Some s ∧ defaults s = defaults s0)
    as [Hs' (s & Hs & Hd)].
  { clear Hm. induction Hreach as [|action mid Hreach [IHs (m0 & Hm0 & Hd0)] Hwf].
    - split; [done|]. by exists s0.
    - pose proof (act_keeps action mid IHs Hwf) as Hact. split.
      + intros m s Hs. specialize (Hact m).
        destruct (stateOf m (configStates mid)); [|congruence].
        destruct Hact as (s' & Hs' & Hsound' & _). congruence.
      + specialize (Hact mode). rewrite Hm0 in Hact.
        destruct Hact as (s' & Hs' & _ & Hd' & _). exists s'. split; [done|congruence]. }
  destruct (Hs' mode s Hs) as (_ & _ & Hclone).
  unfold resetToDefaults. rewrite Hs, Hclone. simpl. rewrite stateOf_withState.
  eexists. split; [done|]. simpl. split; [done|]. split; [|done].
  rewrite Hd. by apply initialState_Some in Hm as (-> & _).
Qed.

Lemma reset_restores_defaults_witness :
  let set := mkConfigSet (JObject [("a", JInt 1)]) (JObject [("a", JInt 1)])
               (JObject [("a", JInt 7)]) None in
  let response := mkLoadConfigsResponse set set fallback None in
  ∃ states state,
    initialiseState response = Some states ∧
    stateOf buildSpecLib
      (configStates (resetToDefaults buildSpecLib
                       (act (Edit buildSpecLib [SKey "a"] (JInt 2)) (mkApp states None))))
      = Some state ∧
    current state = defaults state.
Proof.
  intros set response.
  destruct (initialiseState response) as [states|] eqn:Hinit; [|discriminate].
  destruct (reset_restores_defaults response states
              (act (Edit buildSpecLib [SKey "a"] (JInt 2)) (mkApp states None)) buildSpecLib)
    as (state & Hstate & Hcur & _).
  - intros []; split; reflexivity.
  - exact Hinit.
  - apply reaches_act; [apply reaches_here|]. split; [reflexivity|].
    injection Hinit as <-. intros s [= <-]. reflexivity.
  - exists states, state. split; [reflexivity|]. split; [exact Hstate|exact Hcur].
Defined.

(** ** The tree editor, rendered *)

Lemma elem_of_flatMapIdx {A B} (f : A → nat → option (list B)) (l : list A) (n : nat)
    (ys : list B) (y : B) :
  flatMapIdx f l n = Some ys → y ∈ ys →
  ∃ i x zs, l !! i = Some x ∧ f x (n + i) = Some zs ∧ y ∈ zs.
Proof.
  revert n ys. induction l as [|x l IH]; intros n ys; simpl.
  - intros [= <-] ?%elem_of_nil. done.
  - destruct (f x n) as [here|] eqn:Hx; [|done].
    destruct (flatMapIdx f l (S n)) as [there|] eqn:Hl; [|done].
    intros [= <-] [Hy|Hy]%elem_of_app.
    + exists 0, x, here. by rewrite Nat.add_0_r.
    + destruct (IH _ _ Hl Hy) as (i & x' & zs & Hi & Hf & Hz).
      exists (S i), x', zs. by rewrite Nat.add_succ_r.
Qed.

Lemma render_is_Some important value label path depth :
  is_Some (render important value label path depth) ↔ defined value = true.
Proof.
  revert label path depth.
  induction value as [| | | | |items IH|entries IH] using JsonValue_deep_ind;
    intros label path depth.
  1: split; [intros [? ?]; done | done].
  1-4: split; [done | by eexists].
  - simpl. destruct (forallb isPrimitive items) eqn:Hprim.
    + split; [intros _|by eexists]. apply forallb_Forall.
      apply forallb_Forall in Hprim. eapply Forall_impl; [done|]. by intros [].
    + rewrite forallb_Forall, Forall_lookup. rewrite Forall_lookup in IH.
      destruct (flatMapIdx _ items 0) as [children|] eqn:Hc.
      * split; [intros _|by eexists]. intros i item Hi.
        assert (is_Some (flatMapIdx
                  (λ item index, render important item ("[" +:+ pretty index +:+ "]")
                                   (path ++ [SIdx index]) (S depth)) items 0)) as Hsome
          by by eexists.
        rewrite flatMapIdx_is_Some in Hsome. by eapply IH, Hsome.
      * split; [intros [? ?]; done|]. intros Hall.
        assert (is_Some (flatMapIdx
                  (λ item index, render important item ("[" +:+ pretty index +:+ "]")
                                   (path ++ [SIdx index]) (S depth)) items 0)) as [? ?];
          [|congruence].
        apply flatMapIdx_is_Some. intros i item Hi. by eapply IH, Hall.
  - simpl. rewrite forallb_Forall, Forall_lookup. rewrite Forall_lookup in IH.
    destruct (flatMapIdx _ entries 0) as [children|] eqn:Hc.
    + split; [intros _|by eexists]. intros i [key child] Hi.
      assert (is_Some (flatMapIdx
                (λ '(key, child) _, render important child key (path ++ [SKey key])
                                      (S depth)) entries 0)) as Hsome
        by by eexists.
      rewrite flatMapIdx_is_Some in Hsome. eapply (IH _ _ Hi). by apply (Hsome i (key, child)).
    + split; [intros [? ?]; done|]. intros Hall.
      assert (is_Some (flatMapIdx
                (λ '(key, child) _, render important child key (path ++ [SKey key])
                                      (S depth)) entries 0)) as [? ?];
        [|congruence].
      apply flatMapIdx_is_Some. intros i [key child] Hi.
      eapply (IH _ _ Hi). by apply (Hall i (key, child)).
Qed.

(** Every instance that the template creates shows a node of the value:
    its path is the path of the root instance followed by a valid address,
    its depth counts the segments of that address, and its control is the
    one for the node there. *)
Lemma render_sound important value label path depth nodes node :
  keysDistinct value = true →
  render important value label path depth = Some nodes →
  node ∈ nodes →
  ∃ q shown,
    nodePath node = path ++ q ∧
    nodeDepth node = depth + length q ∧
    resolve value q = Some shown ∧
    nodeControl node = controlOf shown ∧
    nodeImportant node = bool_decide (pathKey (path ++ q) ∈ important).
Proof.
  revert label path depth nodes.
  induction value as [| | | | |items IH|entries IH] using JsonValue_deep_ind;
    intros label path depth nodes Hkd Hrender Hin; try done.
  1-4: simpl in Hrender; injection Hrender as <-;
       apply list_elem_of_singleton in Hin as ->;
       eexists [], _; by rewrite app_nil_r, Nat.add_0_r.
  - simpl in Hrender. destruct (forallb isPrimitive items) eqn:Hprim.
    + injection Hrender as <-. apply list_elem_of_singleton in Hin as ->.
      exists [], (JArray items). rewrite app_nil_r, Nat.add_0_r. simpl. by rewrite Hprim.
    + destruct (flatMapIdx _ items 0) as [children|] eqn:Hc; [|done].
      injection Hrender as <-. apply elem_of_cons in Hin as [->|Hin].
      { exists [], (JArray items). rewrite app_nil_r, Nat.add_0_r. simpl. by rewrite Hprim. }
      destruct (elem_of_flatMapIdx _ _ _ _ _ Hc Hin) as (i & item & zs & Hi & Hz & Hnode).
      simpl in Hkd. rewrite forallb_Forall, Forall_lookup in Hkd.
      rewrite Forall_lookup in IH.
      destruct (IH i item Hi _ _ _ _ (Hkd i item Hi) Hz Hnode)
        as (q & shown & Hp & Hdepth & Hres & Hctl & Himp).
      exists (SIdx i :: q), shown. simpl. rewrite Hi.
      rewrite <-app_assoc in Hp, Himp. simpl in Hp, Himp.
      split; [done|]. split; [lia|]. done.
  - simpl in Hrender.
    destruct (flatMapIdx _ entries 0) as [children|] eqn:Hc; [|done].
    injection Hrender as <-. apply elem_of_cons in Hin as [->|Hin].
    { eexists [], _. by rewrite app_nil_r, Nat.add_0_r. }
    destruct (elem_of_flatMapIdx _ _ _ _ _ Hc Hin)
      as (i & [key child] & zs & Hi & Hz & Hnode).
    apply keysDistinct_object in Hkd as [Hnd Hkd].
    rewrite Forall_lookup in Hkd. rewrite Forall_lookup in IH.
    destruct (IH i _ Hi _ _ _ _ (Hkd i _ Hi) Hz Hnode)
      as (q & shown & Hp & Hdepth & Hres & Hctl & Himp).
    exists (SKey key :: q), shown. simpl.
    rewrite (elem_of_lookupKey_Some key child entries Hnd)
      by by eapply list_elem_of_lookup_2.
    rewrite <-app_assoc in Hp, Himp. simpl in Hp, Himp.
    split; [done|]. split; [lia|]. done.
Qed.

(** X25.  What the editor shows when it is mounted on a configuration.  For
    a configuration whose arrays have no [undefined] element, the template
    renders exactly when the configuration holds no [undefined]; otherwise
    it throws.  Every instance it creates shows a node of the
    configuration: its path is a valid address, its depth is the length of
    the path, its control is the one for the node there, and the flag it
    computes when it is created is set exactly when its dot-joined path is
    in the important set. *)
Theorem render_nodes (important : gset string) (value : JsonValue) (label : string) :
  (dense value = true →
   (is_Some (render important value label [] 0) ↔ defined value = true)) ∧
  (keysDistinct value = true →
   ∀ nodes node,
     render important value label [] 0 = Some nodes → node ∈ nodes →
     ∃ shown,
       resolve value (nodePath node) = Some shown ∧
       nodeControl node = controlOf shown ∧
       nodeDepth node = length (nodePath node) ∧
       nodeImportant node = bool_decide (pathKey (nodePath node) ∈ important)).
Proof.
  split; [intros _; apply render_is_Some|].
  intros Hkd nodes node Hrender Hin.
  destruct (render_sound _ _ _ _ _ _ _ Hkd Hrender Hin)
    as (q & shown & Hp & Hdepth & Hres & Hctl & Himp).
  simpl in *. subst q. by exists shown.
Qed.

Lemma render_nodes_witness :
  ∃ nodes,
    render ∅ (JObject [("a", JArray [JInt 1]); ("b", JBool true)]) "root" [] 0 = Some nodes ∧
    ∀ node, node ∈ nodes →
      ∃ shown,
        resolve (JObject [("a", JArray [JInt 1]); ("b", JBool true)]) (nodePath node)
          = Some shown ∧
        nodeControl node = controlOf shown.
Proof.
  eexists. split; [reflexivity|]. intros node Hin.
  destruct (proj2 (render_nodes ∅ (JObject [("a", JArray [JInt 1]); ("b", JBool true)]) "root")
              eq_refl _ node eq_refl Hin) as (shown & Hres & Hctl & _).
  by exists shown.
Defined.

Lemma resolve_fits root path node : resolve root path = Some node → fits root path = true.
Proof.
  revert root. induction path as [|head rest IH]; intros root Hres; [done|].
  destruct root as [| | | | |items|entries], head as [k|i]; try done; simpl in *.
  - destruct (items !! i) as [item|] eqn:Hi; [|done]. destruct rest; [|by eapply IH].
    apply bool_decide_eq_true. by eapply Nat.lt_le_incl, lookup_lt_Some.
  - destruct (lookupKey k entries) as [child|]; [|done]. destruct rest; [done|by eapply IH].
Qed.

Lemma emits_path Number JSON_parse node update :
  emits Number JSON_parse node update → update.1 = nodePath node.
Proof.
  intros [checked checked' u _ Hin|n text u _ Hin|s text u _ Hin|items text u _ Hin];
    apply list_elem_of_singleton in Hin as ->; done.
Qed.

(** X26.  An edit made in the editor arrives where it was made: for an
    instance rendered from the current configuration of a mode, whatever
    its control emits is written by [handleUpdate] at a valid address, fits
    the configuration, and is found at that address afterwards. *)
Theorem edit_is_found (Number : string → spec_float)
    (JSON_parse : string → option JsonValue) (mode : RunMode) (app : App)
    (state : ConfigState) (label : string) (nodes : list Node) (node : Node)
    (update : JsonPath * JsonValue) :
  stateOf mode (configStates app) = Some state →
  keysDistinct (current state) = true →
  render (important state) (current state) label [] 0 = Some nodes →
  node ∈ nodes →
  emits Number JSON_parse node update →
  fits (current state) update.1 = true ∧
  ∃ state',
    stateOf mode (configStates (handleUpdate mode update.1 update.2 app)) = Some state' ∧
    resolve (current state') update.1 = Some update.2.
Proof.
  intros Hstate Hkd Hrender Hin Hemits.
  destruct (render_sound _ _ _ _ _ _ _ Hkd Hrender Hin) as (q & shown & Hp & _ & Hres & _).
  simpl in Hp. subst q. rewrite (emits_path _ _ _ _ Hemits).
  split; [by eapply resolve_fits|].
  unfold handleUpdate. rewrite Hstate. simpl. rewrite stateOf_withState.
  eexists. split; [done|]. simpl.
  rewrite <-(app_nil_r (nodePath node)) at 1.
  by rewrite (resolve_setValue_below _ _ [] shown), setValue_nil.
Qed.

Lemma edit_is_found_witness :
  let state := mkConfigState JNull (JObject [("b", JBool true)]) ∅ fallback None None in
  let app := mkApp (mkConfigStates (Some state) None) None in
  ∃ state',
    stateOf buildSpecLib
      (configStates (handleUpdate buildSpecLib [SKey "b"] (JBool false) app)) = Some state' ∧
    resolve (current state') [SKey "b"] = Some (JBool false).
Proof.
  intros state app.
  apply (edit_is_found (λ _, S754_nan) (λ _, None) buildSpecLib app state "root"
           [mkNode "root" [] 0 false Group; mkNode "b" [SKey "b"] 1 false (Checkbox true)]
           (mkNode "b" [SKey "b"] 1 false (Checkbox true)) ([SKey "b"], JBool false)).
  - reflexivity.
  - reflexivity.
  - reflexivity.
  - apply list_elem_of_further, list_elem_of_here.
  - apply (emits_checkbox _ _ _ true false); [reflexivity|apply list_elem_of_here].
Defined.

(** ** The textarea of an array, shown and committed *)

Lemma lines_read_back Number JSON_parse numberToString JSON_stringify
    JSON_stringify_indented (items : list JsonValue) :
  Forall (readsBack Number JSON_parse numberToString JSON_stringify
            JSON_stringify_indented) items →
  parseLine Number JSON_parse <$>
    (trim <$> filter (λ line, isBlank line = false)
                (map (itemText numberToString JSON_stringify JSON_stringify_indented) items))
  = items.
Proof.
  induction 1 as [|item rest (_ & Hblank & Hparse) _ IH]; [done|].
  simpl map. rewrite filter_cons_True by done.
  rewrite !fmap_cons. by rewrite Hparse, IH.
Qed.

(** X27.  An array whose items are each read back from their own line is
    read back whole: committing the text that the textarea shows for it,
    unchanged, emits the same array.  Every array of Booleans is such an
    array, whatever [Number] and [JSON.parse] are; so is the empty array. *)
Theorem textarea_round_trip (Number : string → spec_float)
    (JSON_parse : string → option JsonValue) (numberToString : spec_float → string)
    (JSON_stringify JSON_stringify_indented : JsonValue → string)
    (path : JsonPath) :
  (∀ items,
     Forall (readsBack Number JSON_parse numberToString JSON_stringify
               JSON_stringify_indented) items →
     commitArrayChanges Number JSON_parse path
       (arrayText numberToString JSON_stringify JSON_stringify_indented items)
     = [(path, JArray items)]) ∧
  (∀ flags : list bool,
     commitArrayChanges Number JSON_parse path
       (arrayText numberToString JSON_stringify JSON_stringify_indented (JBool <$> flags))
     = [(path, JArray (JBool <$> flags))]).
Proof.
  assert (∀ items,
     Forall (readsBack Number JSON_parse numberToString JSON_stringify
               JSON_stringify_indented) items →
     commitArrayChanges Number JSON_parse path
       (arrayText numberToString JSON_stringify JSON_stringify_indented items)
     = [(path, JArray items)]) as Hgeneral.
  { intros items Hall. unfold commitArrayChanges, arrayText. do 3 f_equal.
    destruct items as [|item items]; [done|].
    rewrite filter_trimmed, split_concat; [|done|].
    - by apply lines_read_back.
    - apply Forall_fmap. eapply Forall_impl; [done|]. by intros it (Hsplit & _). }
  split; [done|].
  intros flags. apply Hgeneral. apply Forall_fmap, Forall_forall.
  intros [] _; by repeat split.
Qed.

Lemma textarea_round_trip_witness :
  commitArrayChanges (λ _, S754_nan) (λ _, None) [SKey "flags"]
    (arrayText (λ _, "") (λ _, "") (λ _, "") [JBool true; JBool false])
  = [([SKey "flags"], JArray [JBool true; JBool false])].
Proof.
  apply (proj1 (textarea_round_trip (λ _, S754_nan) (λ _, None) (λ _, "") (λ _, "") (λ _, "")
                  [SKey "flags"])).
  repeat constructor.
Defined.

(** ** The important set for keys without dots *)

(** X28.  For a simplified configuration whose keys are not empty and have
    no dot, the important set holds exactly the dot-joined strings of the
    paths that lead to a leaf or to a container above a leaf, the root
    excepted; these are the strings under which the editor looks its
    instances up. *)
Theorem important_plain_keys (value : JsonValue) :
  is_json value = true → plainKeys value = true →
  ∃ members,
    computeImportant value = Some members ∧
    ∀ s, s ∈ members ↔
         ∃ leaf q, leaf ∈ leafPaths value ∧ q ≠ [] ∧ q `prefix_of` leaf ∧ s = pathKey q.
Proof.
  intros Hj Hplain. unfold computeImportant. rewrite collectPaths_leafPaths by done.
  eexists. split; [done|]. intros s. rewrite elem_of_important_loop. split.
  - intros [?%not_elem_of_empty|(str & pre & Hin & Hstr & Hpre & Hprefix & ->)]; [done|].
    apply list_elem_of_fmap in Hin as (leaf & -> & Hleaf). simpl in *.
    assert (leaf ≠ []) as Hleafne by (intros ->; done).
    destruct (pathKey_plain leaf Hleafne (leafPaths_plain _ _ Hplain Hleaf)) as [Hsplit _].
    change (joinDot (segKey <$> leaf)) with (pathKey leaf) in Hprefix.
    rewrite Hsplit in Hprefix. destruct Hprefix as [suffix Hsuffix].
    exists leaf, (take (length pre) leaf).
    assert (pre = segKey <$> take (length pre) leaf) as Hq.
    { rewrite fmap_take, Hsuffix. by rewrite take_app_length. }
    split; [done|]. split; [intros Hnil; rewrite Hnil in Hq; done|].
    split; [apply prefix_take|]. unfold pathKey. by rewrite <-Hq.
  - intros (leaf & q & Hleaf & Hq & [suffix ->] & ->). right.
    exists (pathKey (q ++ suffix)), (segKey <$> q).
    assert (q ++ suffix ≠ []) as Hne by by destruct q.
    destruct (pathKey_plain _ Hne (leafPaths_plain _ _ Hplain Hleaf)) as [Hsplit Hkey].
    split; [apply list_elem_of_fmap; by exists (q ++ suffix)|].
    split; [done|]. split; [by destruct q|]. split; [|done].
    rewrite Hsplit, fmap_app. by eexists.
Qed.

Lemma important_plain_keys_witness :
  ∃ members,
    computeImportant (JObject [("p", JObject [("q", JInt 1)])]) = Some members ∧
    "p" ∈ members.
Proof.
  destruct (important_plain_keys (JObject [("p", JObject [("q", JInt 1)])]))
    as (members & Hc & Hm); [reflexivity|reflexivity|].
  exists members. split; [exact Hc|]. apply Hm.
  exists [SKey "p"; SKey "q"], [SKey "p"]. split; [apply list_elem_of_here|].
  split; [discriminate|]. split; [by exists [SKey "q"]|reflexivity].
Defined.

(** ** The log preview *)

Lemma length_sliceLast {A} n (l : list A) : length (sliceLast n l) = length l `min` n.
Proof. unfold sliceLast. rewrite length_drop. lia. Qed.

Lemma sliceLast_snoc {A} n (l : list A) (x : A) :
  sliceLast n (sliceLast n l ++ [x]) = sliceLast n (l ++ [x]).
Proof.
  unfold sliceLast. rewrite !length_app, length_drop. simpl.
  rewrite !drop_app, drop_drop, length_drop. f_equal; f_equal; lia.
Qed.

(** X29.  While [progressState.mode] stays as it is, the log preview holds
    the last 120 of the lines received for that run since it was empty, in
    the order received; lines of the other mode are left out while a mode
    is set.  It never holds more than 120. *)
Theorem log_preview (running : option RunMode) (payloads : list LogPayload) :
  foldl (onLog running) [] payloads
  = sliceLast maxLogEntries
      (filter (λ payload, otherRun running (logMode payload) = false) payloads) ∧
  length (foldl (onLog running) [] payloads) ≤ maxLogEntries.
Proof.
  assert (∀ seen,
            foldl (onLog running) (sliceLast maxLogEntries seen) payloads
            = sliceLast maxLogEntries
                (seen ++ filter (λ payload, otherRun running (logMode payload) = false)
                           payloads)) as Hgen.
  { induction payloads as [|payload payloads IH]; intros seen.
    - simpl. by rewrite app_nil_r.
    - simpl foldl. rewrite filter_cons. unfold onLog at 2.
      destruct (otherRun running (logMode payload)) eqn:Hother.
      + rewrite decide_False by done. apply IH.
      + rewrite decide_True by done. rewrite sliceLast_snoc, IH.
        by rewrite <-app_assoc. }
  specialize (Hgen []). simpl in Hgen. change (sliceLast maxLogEntries []) with
    (@nil LogPayload) in Hgen.
  split; [done|]. rewrite Hgen, length_sliceLast. lia.
Qed.

(** ** Edits at different places *)

Lemma store_in_range i value items :
  i < length items → store i value items = <[i:=value]> items.
Proof. intros Hi. unfold store. by rewrite decide_True. Qed.

Lemma store_commute i j a b items :
  i ≠ j → i < length items → j < length items →
  store i a (store j b items) = store j b (store i a items).
Proof.
  intros Hne Hi Hj. rewrite (store_in_range j b), (store_in_range i a items) by done.
  rewrite !store_in_range by by rewrite length_insert.
  by apply list_insert_insert_ne.
Qed.

Lemma replaceProp_commute k1 k2 a b entries :
  k1 ≠ k2 →
  replaceProp k1 a (replaceProp k2 b entries) = replaceProp k2 b (replaceProp k1 a entries).
Proof.
  intros Hne. induction entries as [|[k v] rest IH]; [done|]. simpl.
  repeat (case_decide; subst; simpl); try congruence.
Qed.

Lemma assign_replace key old value entries :
  lookupKey key entries = Some old → assign key value entries = replaceProp key value entries.
Proof. intros Hk. unfold assign. by rewrite Hk. Qed.

Lemma assign_commute k1 k2 a b entries :
  k1 ≠ k2 → k1 ∈ keys entries → k2 ∈ keys entries →
  assign k1 a (assign k2 b entries) = assign k2 b (assign k1 a entries).
Proof.
  intros Hne [old1 H1]%elem_of_keys [old2 H2]%elem_of_keys.
  rewrite (assign_replace k1 old1 a (assign k2 b entries))
    by by rewrite lookupKey_assign_ne.
  rewrite (assign_replace k2 old2 b (assign k1 a entries))
    by by rewrite lookupKey_assign_ne.
  rewrite (assign_replace k2 old2 b entries), (assign_replace k1 old1 a entries) by done.
  by apply replaceProp_commute.
Qed.

(** X30.  Two writes at existing places that part from each other can be
    done in either order: the result is the same. *)
Theorem setValue_commute (root : JsonValue) (p q : JsonPath) (x y a b : JsonValue) :
  parts p q →
  resolve root p = Some a → resolve root q = Some b →
  setValue (setValue root p x) q y = setValue (setValue root q y) p x.
Proof.
  intros Hparts. revert root.
  induction Hparts as [s t p q Hne|s p q Hparts IH]; intros root Hp Hq.
  - destruct root as [| | | | |items|entries], s as [k|i], t as [k'|j];
      try done; simpl in Hp, Hq.
    + destruct (items !! i) as [item|] eqn:Hi; [|done].
      destruct (items !! j) as [item'|] eqn:Hj; [|done].
      assert (i ≠ j) as Hij by congruence. simpl setValue.
      rewrite !elem_store_ne by done.
      apply lookup_lt_Some in Hi, Hj. by rewrite store_commute.
    + destruct (lookupKey k entries) as [child|] eqn:Hk; [|done].
      destruct (lookupKey k' entries) as [child'|] eqn:Hk'; [|done].
      assert (k ≠ k') as Hkk by congruence.
      rewrite !setValue_object. simpl segKey.
      rewrite !prop_assign_ne by done.
      f_equal. apply assign_commute; [congruence|by eapply lookupKey_Some_keys..].
  - destruct root as [| | | | |items|entries], s as [k|i]; try done; simpl in Hp, Hq.
    + destruct (items !! i) as [item|] eqn:Hi; [|done].
      simpl setValue. rewrite !elem_store_eq, !store_store.
      unfold elem. rewrite Hi. simpl. by rewrite (IH item).
    + destruct (lookupKey k entries) as [child|] eqn:Hk; [|done].
      rewrite !setValue_object. simpl segKey.
      rewrite !(prop_assign_own k child), !assign_assign by done.
      unfold prop. rewrite Hk. simpl. by rewrite (IH child).
Qed.

Lemma setValue_commute_witness :
  let v := JObject [("a", JInt 1); ("b", JArray [JInt 2; JInt 3])] in
  setValue (setValue v [SKey "a"] (JInt 7)) [SKey "b"; SIdx 1] (JInt 8)
  = setValue (setValue v [SKey "b"; SIdx 1] (JInt 8)) [SKey "a"] (JInt 7).
Proof.
  intros v. apply (setValue_commute v [SKey "a"] [SKey "b"; SIdx 1] _ _ (JInt 1) (JInt 3)).
  - apply parts_here. discriminate.
  - reflexivity.
  - reflexivity.
Defined.
